(** * Sonix audio visualizer: the analysis core of AudioVisualizer.ts

    A shallow embedding of the classes ProfessionalAudioAnalyzer,
    AdvancedBeatDetector (with KickDetector, SnareDetector, HihatDetector),
    TempoTracker, RhythmAnalyzer, AdvancedVisualEffects and of the method
    AudioVisualizer.processAudioData that drives them.

    JavaScript numbers are IEEE 754 binary64 values: they are modelled by the
    primitive type [float], whose operations are the binary64 ones, so that
    NaN, the infinities, signed zeros and rounding behave as in the source.
    A [Float32Array] is a [list float]; a store into one rounds to binary32
    ([Math_fround]).  Reading past the end of an array gives [undefined],
    which arithmetic turns into NaN.

    Two things the source takes from its platform are kept explicit:
    [Math.pow], whose results the language leaves implementation-approximated,
    is a field of the class [Platform]; the wall clock read by
    [performance.now()] is a [Timeline], threaded by the monad [Perf]. *)

From Stdlib Require Import ZArith List Floats Lia Bool Strings.Byte.
Import ListNotations.

Set Warnings "-inexact-float,-abstract-large-number".

Local Open Scope float_scope.

(** ** JavaScript numbers *)

Module JS.

(** An integer (an array length, a loop counter) seen as a Number. *)
Definition of_Z (z : Z) : float :=
  match z with
  | Z0 => 0
  | Zpos _ => of_uint63 (Uint63.of_Z z)
  | Zneg p => - of_uint63 (Uint63.of_Z (Zpos p))
  end.

Definition of_nat (n : nat) : float := of_Z (Z.of_nat n).

(** [x > y] and [x >= y] of the source. *)
Definition gt (x y : float) : bool := y <? x.
Definition ge (x y : float) : bool := y <=? x.

(** [arr[i]] used as a number: [undefined] becomes NaN. *)
Definition get (arr : list float) (i : nat) : float := nth i arr nan.

(** [arr.slice(start, stop)], the elements a loop
    [for (i = start; i < stop; i++)] visits when [stop <= arr.length]. *)
Definition slice (start stop : nat) (arr : list float) : list float :=
  firstn (stop - start) (skipn start arr).

(** [Math.min] and [Math.max]: NaN if an argument is NaN, and -0 below +0. *)
Definition Math_min (a b : float) : float :=
  if is_nan a || is_nan b then nan
  else if a <? b then a
  else if b <? a then b
  else if get_sign a then a else b.

Definition Math_max (a b : float) : float :=
  if is_nan a || is_nan b then nan
  else if a <? b then b
  else if b <? a then a
  else if get_sign a then b else a.

Definition Math_abs (x : float) : float := abs x.
Definition Math_sqrt (x : float) : float := sqrt x.

Definition Math_PI : float := 3.141592653589793.

(** The integer part [Math.floor] leaves, for a finite number. *)
Definition floorZ (x : float) : Z :=
  match Prim2SF x with
  | S754_finite s m e =>
      let sm := if s then Zneg m else Zpos m in
      if (0 <=? e)%Z then (sm * 2 ^ e)%Z else (sm / 2 ^ (- e))%Z
  | _ => 0%Z
  end.

(** [Math.floor(x)] where [x] is a finite number below 2^63 in magnitude
    (the source applies it to fractions of array lengths only). *)
Definition Math_floor (x : float) : float := of_Z (floorZ x).

(** Rounding to binary32, as a store into a [Float32Array] does. *)
Definition Math_fround (x : float) : float :=
  match Prim2SF x with
  | S754_finite s m e => SF2Prim (binary_round 24 128 s m e)
  | _ => x
  end.

(** [arr.reduce((a, b) => a + b, 0)]. *)
Definition sum (arr : list float) : float :=
  fold_left (fun a b => a + b) arr 0.

(** [sum += spectrum[i] * spectrum[i]] over the elements of [arr]. *)
Definition sum_squares (arr : list float) : float :=
  fold_left (fun s x => s + x * x) arr 0.

(** [buffer.push(x); if (buffer.length > cap) buffer.shift();] *)
Definition push_capped {A : Type} (cap : nat) (buffer : list A) (x : A)
  : list A :=
  let pushed := buffer ++ [x] in
  if (cap <? length pushed)%nat then tl pushed else pushed.

(** [arr[i] = x] on an ordinary array: replaces inside, extends (leaving
    holes, which read as [undefined]) outside. *)
Fixpoint assign (arr : list float) (i : nat) (x : float) : list float :=
  match i, arr with
  | O, [] => [x]
  | O, _ :: rest => x :: rest
  | S i', [] => nan :: assign [] i' x
  | S i', y :: rest => y :: assign rest i' x
  end.

(** [Array.prototype.sort] with a comparator [cmp]: [x] is placed after
    [y] when [cmp y x <= 0] (a NaN result counts as 0).  The sort is
    stable, so on a consistent comparator this is the order every
    conforming engine produces. *)
Fixpoint sort_insert (cmp : float -> float -> float) (x : float)
    (sorted : list float) : list float :=
  match sorted with
  | [] => [x]
  | y :: rest =>
      if gt (cmp y x) 0 then x :: sorted
      else y :: sort_insert cmp x rest
  end.

Definition sort (cmp : float -> float -> float) (arr : list float)
  : list float :=
  fold_left (fun sorted x => sort_insert cmp x sorted) arr [].

End JS.

(** ** The platform *)

(** [Math.pow] is specified exactly on special arguments only; elsewhere an
    engine may return any approximation. *)
Class Platform := { Math_pow : float -> float -> float }.

(** The wall clock: [tl n] is what the [n]-th call of [performance.now()]
    returns.  A computation that reads the clock takes the timeline and the
    number of readings taken so far, and returns the new count. *)
Definition Timeline := nat -> float.

Definition Perf (A : Type) : Type := Timeline -> nat -> A * nat.

Definition ret {A} (a : A) : Perf A := fun _ n => (a, n).

Definition bind {A B} (m : Perf A) (k : A -> Perf B) : Perf B :=
  fun tl n => let (a, n') := m tl n in k a tl n'.

Definition performance_now : Perf float := fun tl n => (tl n, S n).

Notation "x <- m ;; k" := (bind m (fun x => k))
  (at level 61, m at next level, right associativity).
Notation "' pat <- m ;; k" := (bind m (fun x => let 'pat := x in k))
  (at level 61, pat pattern, m at next level, right associativity).

(** ** Data model *)

Record AdvancedAudioFeatures := {
  energy : float;
  bassEnergy : float;
  midEnergy : float;
  trebleEnergy : float;
  subBassEnergy : float;
  highMidEnergy : float;
  presenceEnergy : float;
  brillianceEnergy : float;
  spectralCentroid : float;
  spectralRolloff : float;
  spectralFlux : float;
  zeroCrossingRate : float;
  tempo : float;
  beat : bool;
  kick : bool;
  snare : bool;
  hihat : bool;
  onset : bool;
  transient : bool;
  harmonicContent : float;
  percussiveContent : float;
  loudness : float;
  dynamicRange : float;
  rhythmStrength : float;
  beatConfidence : float
}.

Module BeatResult.
Record t := {
  beat : bool;
  kick : bool;
  snare : bool;
  hihat : bool;
  confidence : float;
  energy : float;
  bassEnergy : float
}.
End BeatResult.

(** ** class ProfessionalAudioAnalyzer *)

Module ProfessionalAudioAnalyzer.

(** The instance state.  The field [windowFunction] of the source is
    filled by the constructor and never read; it is left out. *)
Record t := {
  previousSpectrum : list float;
  spectralFluxBuffer : list float
}.

Definition create : t :=
  {| previousSpectrum := []; spectralFluxBuffer := [] |}.

Definition calculateEnergy (spectrum : list float) : float :=
  JS.Math_sqrt (JS.sum_squares spectrum / JS.of_nat (length spectrum)).

Definition calculateBandEnergy (spectrum : list float)
    (startBin endBin : nat) : float :=
  let stop := Nat.min endBin (length spectrum) in
  let bins := JS.of_Z (Z.of_nat stop - Z.of_nat startBin) in
  JS.Math_sqrt (JS.sum_squares (JS.slice startBin stop spectrum) / bins).

(** The loop of [calculateSpectralCentroid], from index [i] on, carrying
    [(weightedSum, magnitudeSum)]. *)
Fixpoint centroid_loop (rest : list float) (i : nat) (acc : float * float)
  : float * float :=
  match rest with
  | [] => acc
  | magnitude :: rest' =>
      centroid_loop rest' (S i)
        (fst acc + JS.of_nat i * magnitude, snd acc + magnitude)
  end.

Definition calculateSpectralCentroid (spectrum : list float) : float :=
  let '(weightedSum, magnitudeSum) := centroid_loop spectrum 0 (0, 0) in
  if JS.gt magnitudeSum 0
  then weightedSum / magnitudeSum / JS.of_nat (length spectrum)
  else 0.

(** The loop of [calculateSpectralRolloff]: the first index at which the
    cumulative energy reaches the threshold, over the spectrum length. *)
Fixpoint rolloff_loop (rest : list float) (i : nat) (len : nat)
    (cumulativeEnergy rolloffThreshold : float) : float :=
  match rest with
  | [] => 1
  | x :: rest' =>
      let cumulativeEnergy := cumulativeEnergy + x * x in
      if JS.ge cumulativeEnergy rolloffThreshold
      then JS.of_nat i / JS.of_nat len
      else rolloff_loop rest' (S i) len cumulativeEnergy rolloffThreshold
  end.

Definition calculateSpectralRolloff (spectrum : list float)
    (threshold : float) : float :=
  let totalEnergy := JS.sum_squares spectrum in
  let rolloffThreshold := totalEnergy * threshold in
  rolloff_loop spectrum 0 (length spectrum) 0 rolloffThreshold.

(** The rectified difference summed by [calculateSpectralFlux]. *)
Fixpoint flux_loop (spectrum previous : list float) (flux : float) : float :=
  match spectrum, previous with
  | s :: spectrum', p :: previous' =>
      let diff := s - p in
      flux_loop spectrum' previous' (if JS.gt diff 0 then flux + diff else flux)
  | _, _ => flux
  end.

Definition calculateSpectralFlux (self : t) (spectrum : list float)
  : float * t :=
  if negb (length (previousSpectrum self) =? length spectrum)%nat then
    (0, {| previousSpectrum := spectrum;
           spectralFluxBuffer := spectralFluxBuffer self |})
  else
    let flux := flux_loop spectrum (previousSpectrum self) 0 in
    (flux, {| previousSpectrum := spectrum;
              spectralFluxBuffer :=
                JS.push_capped 10 (spectralFluxBuffer self) flux |}).

(** Sign changes between neighbours, counted from index 1. *)
Fixpoint crossings_loop (prev : float) (rest : list float) (crossings : nat)
  : nat :=
  match rest with
  | [] => crossings
  | x :: rest' =>
      crossings_loop x rest'
        (if negb (Bool.eqb (JS.ge x 0) (JS.ge prev 0))
         then S crossings else crossings)
  end.

Definition calculateZeroCrossingRate (timeData : list float) : float :=
  let crossings :=
    match timeData with
    | [] => O
    | first :: rest => crossings_loop first rest 0
    end in
  JS.of_nat crossings / JS.of_nat (length timeData).

Definition calculateHarmonicContent (spectrum : list float) : float :=
  let fundamentalBin := 4%nat in
  let harmonicEnergy :=
    fold_left
      (fun acc harmonic =>
         let bin := (fundamentalBin * harmonic)%nat in
         if (bin <? length spectrum)%nat
         then acc + JS.get spectrum bin else acc)
      [2; 3; 4; 5; 6; 7; 8]%nat 0 in
  harmonicEnergy / calculateEnergy spectrum.

(** Local peaks above the threshold, for [i] from 1 to [length - 2]. *)
Fixpoint peaks_loop (prev : float) (rest : list float) (peaks : nat) : nat :=
  match rest with
  | cur :: ((next :: _) as rest') =>
      peaks_loop cur rest'
        (if JS.gt (JS.Math_abs cur) 0.1
            && JS.gt (JS.Math_abs cur) (JS.Math_abs prev)
            && JS.gt (JS.Math_abs cur) (JS.Math_abs next)
         then S peaks else peaks)
  | _ => peaks
  end.

Definition calculatePercussiveContent (timeData : list float) : float :=
  let peaks :=
    match timeData with
    | [] => O
    | first :: rest => peaks_loop first rest 0
    end in
  JS.of_nat peaks / JS.of_nat (length timeData).

Definition aWeightingResponse (freq : float) : float :=
  let f2 := freq * freq in
  let f4 := f2 * f2 in
  let numerator := 12194 * 12194 * f4 in
  let denominator :=
    (f2 + 20.6 * 20.6) * (f2 + 107.7 * 107.7) * (f2 + 737.9 * 737.9)
    * (f2 + 12194 * 12194) in
  numerator / denominator.

Definition getAWeightingCurve (len : nat) : list float :=
  map (fun i =>
         let freq := JS.of_nat i / JS.of_nat len * 22050 in
         JS.Math_fround (aWeightingResponse freq))
      (seq 0 len).

Fixpoint loudness_loop (spectrum aWeights : list float) (weightedSum : float)
  : float :=
  match spectrum, aWeights with
  | s :: spectrum', w :: aWeights' =>
      loudness_loop spectrum' aWeights' (weightedSum + s * s * w)
  | _, _ => weightedSum
  end.

Definition calculateLoudness (spectrum : list float) : float :=
  let aWeights := getAWeightingCurve (length spectrum) in
  JS.Math_sqrt (loudness_loop spectrum aWeights 0
                / JS.of_nat (length spectrum)).

Definition calculateDynamicRange (spectrum : list float) : float :=
  let sortedSpectrum := JS.sort (fun a b => b - a) spectrum in
  let len := JS.of_nat (length sortedSpectrum) in
  let p95 := JS.get sortedSpectrum (Z.to_nat (JS.floorZ (len * 0.05))) in
  let p5 := JS.get sortedSpectrum (Z.to_nat (JS.floorZ (len * 0.95))) in
  p95 - p5.

Definition detectOnset (self : t) (spectrum : list float) : bool * t :=
  let avgFlux :=
    JS.sum (spectralFluxBuffer self)
    / JS.of_nat (Nat.max (length (spectralFluxBuffer self)) 1) in
  let '(currentFlux, self') := calculateSpectralFlux self spectrum in
  (JS.gt currentFlux (avgFlux * 1.5) && JS.gt currentFlux 0.1, self').

Fixpoint maxChange_loop (prev : float) (rest : list float)
    (maxChange : float) : float :=
  match rest with
  | [] => maxChange
  | x :: rest' =>
      let change := JS.Math_abs (x - prev) in
      maxChange_loop x rest' (JS.Math_max maxChange change)
  end.

Definition detectTransient (timeData : list float) : bool :=
  let maxChange :=
    match timeData with
    | [] => 0
    | first :: rest => maxChange_loop first rest 0
    end in
  JS.gt maxChange 0.3.

(** [analyze]: the fields of the object literal are evaluated in the order
    they are written, so the flux call behind [spectralFlux] runs before
    the one inside [detectOnset].  [currentTime] is accepted and unused. *)
Definition analyze (self : t) (frequencyData timeData : list float)
    (currentTime : float) : AdvancedAudioFeatures * t :=
  let '(flux, self1) := calculateSpectralFlux self frequencyData in
  let '(isOnset, self2) := detectOnset self1 frequencyData in
  ({| energy := calculateEnergy frequencyData;
      bassEnergy := calculateBandEnergy frequencyData 0 8;
      subBassEnergy := calculateBandEnergy frequencyData 0 4;
      midEnergy := calculateBandEnergy frequencyData 8 32;
      highMidEnergy := calculateBandEnergy frequencyData 32 64;
      trebleEnergy := calculateBandEnergy frequencyData 64 128;
      presenceEnergy := calculateBandEnergy frequencyData 128 256;
      brillianceEnergy := calculateBandEnergy frequencyData 256 512;
      spectralCentroid := calculateSpectralCentroid frequencyData;
      spectralRolloff := calculateSpectralRolloff frequencyData 0.85;
      spectralFlux := flux;
      zeroCrossingRate := calculateZeroCrossingRate timeData;
      harmonicContent := calculateHarmonicContent frequencyData;
      percussiveContent := calculatePercussiveContent timeData;
      loudness := calculateLoudness frequencyData;
      dynamicRange := calculateDynamicRange frequencyData;
      onset := isOnset;
      transient := detectTransient timeData;
      tempo := 0;
      beat := false;
      kick := false;
      snare := false;
      hihat := false;
      rhythmStrength := 0;
      beatConfidence := 0 |},
   self2).

End ProfessionalAudioAnalyzer.

(** ** Specialised drum detectors *)

Module KickDetector.

Record t := {
  kickHistory : list float;
  lastKickTime : float;
  kickThreshold : float
}.

Definition create : t :=
  {| kickHistory := []; lastKickTime := 0; kickThreshold := 0.8 |}.

Definition calculateSubBassEnergy (spectrum : list float) : float :=
  let subBassRange := Nat.min 8 (length spectrum) in
  JS.Math_sqrt (JS.sum_squares (JS.slice 1 subBassRange spectrum)
                / JS.of_Z (Z.of_nat subBassRange - 1)).

Definition detect (self : t) (spectrum : list float) (bassEnergy : float)
  : Perf (bool * t) :=
  let subBassEnergy := calculateSubBassEnergy spectrum in
  let history := JS.push_capped 10 (kickHistory self) subBassEnergy in
  let avgKickEnergy := JS.sum history / JS.of_nat (length history) in
  currentTime <- performance_now ;;
  let isKick :=
    JS.gt subBassEnergy (avgKickEnergy * 1.4)
    && JS.gt bassEnergy (kickThreshold self)
    && JS.gt (currentTime - lastKickTime self) 200 in
  ret (isKick,
       {| kickHistory := history;
          lastKickTime := if isKick then currentTime else lastKickTime self;
          kickThreshold := kickThreshold self |}).

End KickDetector.

Module SnareDetector.

Record t := {
  snareHistory : list float;
  lastSnareTime : float
}.

Definition create : t := {| snareHistory := []; lastSnareTime := 0 |}.

(** RMS of the bins from [floor(length * lo)] up to [floor(length * hi)],
    divided by the nominal width of the band. *)
Definition band (spectrum : list float) (lo hi : float) : float :=
  let len := JS.of_nat (length spectrum) in
  let start := JS.floorZ (len * lo) in
  let stop := JS.floorZ (len * hi) in
  JS.Math_sqrt
    (JS.sum_squares
       (JS.slice (Z.to_nat start)
                 (Nat.min (Z.to_nat stop) (length spectrum)) spectrum)
     / JS.of_Z (stop - start)).

Definition calculateMidEnergy (spectrum : list float) : float :=
  band spectrum 0.1 0.3.

Definition calculateHighMidEnergy (spectrum : list float) : float :=
  band spectrum 0.3 0.6.

Section WithPlatform.
Context {platform : Platform}.

(** Spectral flatness over the bins between 20% and 80% of the
    spectrum; only bins above 0.001 take part. *)
Definition calculateNoiseComponent (spectrum : list float) : float :=
  let len := JS.of_nat (length spectrum) in
  let start := JS.floorZ (len * 0.2) in
  let stop := JS.floorZ (len * 0.8) in
  let '(geometricMean, arithmeticMean, count) :=
    fold_left
      (fun '(g, a, c) x =>
         if JS.gt x 0.001
         then (g * Math_pow x (1 / JS.of_Z (stop - start)), a + x, S c)
         else (g, a, c))
      (JS.slice (Z.to_nat start)
                (Nat.min (Z.to_nat stop) (length spectrum)) spectrum)
      (1, 0, O) in
  let arithmeticMean := arithmeticMean / JS.of_nat count in
  if (0 <? count)%nat then geometricMean / arithmeticMean else 0.

Definition detect (self : t) (spectrum : list float) : Perf (bool * t) :=
  let midEnergy := calculateMidEnergy spectrum in
  let highMidEnergy := calculateHighMidEnergy spectrum in
  let noiseComponent := calculateNoiseComponent spectrum in
  let snareCharacteristic := (midEnergy + highMidEnergy) * noiseComponent in
  let history := JS.push_capped 8 (snareHistory self) snareCharacteristic in
  let avgSnareEnergy := JS.sum history / JS.of_nat (length history) in
  currentTime <- performance_now ;;
  let isSnare :=
    JS.gt snareCharacteristic (avgSnareEnergy * 1.6)
    && JS.gt (currentTime - lastSnareTime self) 180 in
  ret (isSnare,
       {| snareHistory := history;
          lastSnareTime :=
            if isSnare then currentTime else lastSnareTime self |}).
End WithPlatform.

End SnareDetector.

Module HihatDetector.

Record t := {
  hihatHistory : list float;
  lastHihatTime : float
}.

Definition create : t := {| hihatHistory := []; lastHihatTime := 0 |}.

(** RMS of the bins from [floor(length * lo)] to the end. *)
Definition tail_band (spectrum : list float) (lo : float) : float :=
  let start := JS.floorZ (JS.of_nat (length spectrum) * lo) in
  JS.Math_sqrt
    (JS.sum_squares (JS.slice (Z.to_nat start) (length spectrum) spectrum)
     / JS.of_Z (Z.of_nat (length spectrum) - start)).

Definition calculateHighFreqEnergy (spectrum : list float) : float :=
  tail_band spectrum 0.6.

Definition calculateBrillianceEnergy (spectrum : list float) : float :=
  tail_band spectrum 0.8.

Definition detect (self : t) (spectrum : list float) : Perf (bool * t) :=
  let highFreqEnergy := calculateHighFreqEnergy spectrum in
  let brillianceEnergy := calculateBrillianceEnergy spectrum in
  let hihatCharacteristic := highFreqEnergy + brillianceEnergy * 1.5 in
  let history := JS.push_capped 6 (hihatHistory self) hihatCharacteristic in
  let avgHihatEnergy := JS.sum history / JS.of_nat (length history) in
  currentTime <- performance_now ;;
  let isHihat :=
    JS.gt hihatCharacteristic (avgHihatEnergy * 1.8)
    && JS.gt (currentTime - lastHihatTime self) 120 in
  ret (isHihat,
       {| hihatHistory := history;
          lastHihatTime :=
            if isHihat then currentTime else lastHihatTime self |}).

End HihatDetector.

(** ** class AdvancedBeatDetector *)

Module AdvancedBeatDetector.

Record t := {
  energyBuffer : list float;
  bassBuffer : list float;
  kickDetector : KickDetector.t;
  snareDetector : SnareDetector.t;
  hihatDetector : HihatDetector.t;
  lastBeatTime : float;
  beatThreshold : float;
  adaptiveThreshold : float;
  minBeatInterval : float
}.

Definition create : t :=
  {| energyBuffer := [];
     bassBuffer := [];
     kickDetector := KickDetector.create;
     snareDetector := SnareDetector.create;
     hihatDetector := HihatDetector.create;
     lastBeatTime := 0;
     beatThreshold := 1.3;
     adaptiveThreshold := 1.3;
     minBeatInterval := 250 |}.

Definition setSensitivity (self : t) (sensitivity : float) : t :=
  {| energyBuffer := energyBuffer self;
     bassBuffer := bassBuffer self;
     kickDetector := kickDetector self;
     snareDetector := snareDetector self;
     hihatDetector := hihatDetector self;
     lastBeatTime := lastBeatTime self;
     beatThreshold := 1.0 + (1 - sensitivity) * 0.8;
     adaptiveThreshold := adaptiveThreshold self;
     minBeatInterval := minBeatInterval self |}.

Definition calculateBassEnergy (spectrum : list float) : float :=
  let bassRange := Nat.min 16 (length spectrum) in
  JS.Math_sqrt (JS.sum_squares (JS.slice 0 bassRange spectrum)
                / JS.of_nat bassRange).

Definition calculateTotalEnergy (spectrum : list float) : float :=
  JS.Math_sqrt (JS.sum_squares spectrum / JS.of_nat (length spectrum)).

Section WithPlatform.
Context {platform : Platform}.

(** [buffer.reduce((sum, val) => sum + Math.pow(val - avg, 2), 0)
     / buffer.length] *)
Definition variance_of (buffer : list float) (avg : float) : float :=
  fold_left (fun sum val => sum + Math_pow (val - avg) 2) buffer 0
  / JS.of_nat (length buffer).

(** The confidence assigned when a beat fires. *)
Definition fire_confidence (totalEnergy avgEnergy threshold : float)
  : float :=
  JS.Math_min 1 ((totalEnergy / (avgEnergy * threshold) - 1) * 2).

Definition process (self : t) (spectrum : list float) (currentTime : float)
  : Perf (BeatResult.t * t) :=
  let bassEnergy := calculateBassEnergy spectrum in
  let totalEnergy := calculateTotalEnergy spectrum in
  let energyBuffer' := JS.push_capped 43 (energyBuffer self) totalEnergy in
  let bassBuffer' := JS.push_capped 43 (bassBuffer self) bassEnergy in
  let avgEnergy := JS.sum energyBuffer' / JS.of_nat (length energyBuffer') in
  let variance := variance_of energyBuffer' avgEnergy in
  let adaptiveThreshold' := 1.2 + JS.Math_min 0.5 (variance * 2) in
  let isBeat :=
    JS.gt totalEnergy (adaptiveThreshold' * avgEnergy)
    && JS.gt (currentTime - lastBeatTime self) (minBeatInterval self) in
  let confidence :=
    if isBeat then fire_confidence totalEnergy avgEnergy adaptiveThreshold'
    else 0 in
  '(isKick, kickDetector') <-
    KickDetector.detect (kickDetector self) spectrum bassEnergy ;;
  '(isSnare, snareDetector') <-
    SnareDetector.detect (snareDetector self) spectrum ;;
  '(isHihat, hihatDetector') <-
    HihatDetector.detect (hihatDetector self) spectrum ;;
  ret ({| BeatResult.beat := isBeat;
          BeatResult.kick := isKick;
          BeatResult.snare := isSnare;
          BeatResult.hihat := isHihat;
          BeatResult.confidence := confidence;
          BeatResult.energy := totalEnergy;
          BeatResult.bassEnergy := bassEnergy |},
       {| energyBuffer := energyBuffer';
          bassBuffer := bassBuffer';
          kickDetector := kickDetector';
          snareDetector := snareDetector';
          hihatDetector := hihatDetector';
          lastBeatTime := if isBeat then currentTime else lastBeatTime self;
          beatThreshold := beatThreshold self;
          adaptiveThreshold := adaptiveThreshold';
          minBeatInterval := minBeatInterval self |}).
End WithPlatform.

End AdvancedBeatDetector.

(** ** class TempoTracker *)

Module TempoTracker.

Record t := {
  beatIntervals : list float;
  lastBeatTime : float;
  currentTempo : float;
  tempoBuffer : list float;
  confidence : float
}.

Definition create : t :=
  {| beatIntervals := [];
     lastBeatTime := 0;
     currentTempo := 0;
     tempoBuffer := [];
     confidence := 0 |}.

(** [sortedIntervals[Math.floor(sortedIntervals.length / 2)]] *)
Definition median (intervals : list float) : float :=
  let sortedIntervals := JS.sort (fun a b => a - b) intervals in
  JS.get sortedIntervals
    (Z.to_nat (JS.floorZ (JS.of_nat (length sortedIntervals) / 2))).

(** [calculateTempo], given the interval history: the tempo and the new
    [tempoBuffer]. *)
Definition calculateTempo (intervals tempoBuffer0 : list float)
  : float * list float :=
  if (length intervals <? 4)%nat then (0, tempoBuffer0)
  else
    let medianInterval := median intervals in
    let tempo := 60000 / medianInterval in
    let buffer := JS.push_capped 8 tempoBuffer0 tempo in
    (JS.sum buffer / JS.of_nat (length buffer), buffer).

Section WithPlatform.
Context {platform : Platform}.

Definition calculateTempoConfidence (intervals : list float) : float :=
  if (length intervals <? 4)%nat then 0
  else
    let avgInterval := JS.sum intervals / JS.of_nat (length intervals) in
    let variance :=
      fold_left (fun sum val => sum + Math_pow (val - avgInterval) 2)
                intervals 0
      / JS.of_nat (length intervals) in
    let stdDev := JS.Math_sqrt variance in
    JS.Math_max 0 (1 - stdDev / avgInterval).

(** [update] reads the clock only on a beat; an interval is kept when
    the tempo it implies lies between 60 and 200 BPM. *)
Definition update (self : t) (beatResult : BeatResult.t) : Perf (float * t) :=
  if BeatResult.beat beatResult then
    currentTime <- performance_now ;;
    let self' :=
      if JS.gt (lastBeatTime self) 0 then
        let interval := currentTime - lastBeatTime self in
        let bpm := 60000 / interval in
        if JS.ge bpm 60 && (bpm <=? 200) then
          let intervals := JS.push_capped 16 (beatIntervals self) interval in
          let '(tempo, buffer) := calculateTempo intervals (tempoBuffer self) in
          {| beatIntervals := intervals;
             lastBeatTime := lastBeatTime self;
             currentTempo := tempo;
             tempoBuffer := buffer;
             confidence := calculateTempoConfidence intervals |}
        else self
      else self in
    let self'' :=
      {| beatIntervals := beatIntervals self';
         lastBeatTime := currentTime;
         currentTempo := currentTempo self';
         tempoBuffer := tempoBuffer self';
         confidence := confidence self' |} in
    ret (currentTempo self'', self'')
  else ret (currentTempo self, self).
End WithPlatform.

Definition getTempo (self : t) : float := currentTempo self.
Definition getConfidence (self : t) : float := confidence self.

End TempoTracker.

(** ** class RhythmAnalyzer *)

Module RhythmAnalyzer.

Record t := {
  rhythmPattern : list float;
  patternLength : nat;
  beatCounter : nat
}.

Definition create : t :=
  {| rhythmPattern := []; patternLength := 16; beatCounter := 0 |}.

Definition calculateEnergy (spectrum : list float) : float :=
  JS.Math_sqrt (JS.sum_squares spectrum / JS.of_nat (length spectrum)).

(** [sum over i < patternLength - lag of pattern[i] * pattern[i + lag]] *)
Definition correlation_at (pattern : list float) (len lag : nat) : float :=
  fold_left
    (fun correlation i =>
       correlation + JS.get pattern i * JS.get pattern (i + lag))
    (seq 0 (len - lag)) 0.

(** The lags [1 <= lag < patternLength / 2]. *)
Definition lags (len : nat) : list nat :=
  filter (fun lag => JS.of_nat lag <? JS.of_nat len / 2) (seq 1 len).

Definition calculateRhythmStrength (self : t) : float :=
  let maxCorrelation :=
    fold_left
      (fun maxCorrelation lag =>
         JS.Math_max maxCorrelation
           (correlation_at (rhythmPattern self) (patternLength self) lag))
      (lags (patternLength self)) 0 in
  maxCorrelation / JS.of_nat (patternLength self).

Definition analyze (self : t) (spectrum : list float) : float * t :=
  let energy := calculateEnergy spectrum in
  let self' :=
    {| rhythmPattern :=
         JS.assign (rhythmPattern self)
                   (beatCounter self mod patternLength self) energy;
       patternLength := patternLength self;
       beatCounter := S (beatCounter self) |} in
  if (patternLength self' <=? length (rhythmPattern self'))%nat
  then (calculateRhythmStrength self', self')
  else (0, self').

End RhythmAnalyzer.

(** ** class AdvancedVisualEffects *)

Module AdvancedVisualEffects.

Record t := {
  flashIntensity : float;
  pulsePhase : float;
  kickPulse : float;
  snarePulse : float;
  hihatPulse : float;
  energyPulse : float;
  colorShift : float
}.

Definition create : t :=
  {| flashIntensity := 0;
     pulsePhase := 0;
     kickPulse := 0;
     snarePulse := 0;
     hihatPulse := 0;
     energyPulse := 0;
     colorShift := 0 |}.

Definition update (self : t) (audioFeatures : AdvancedAudioFeatures) : t :=
  let tempoMultiplier :=
    if JS.gt (tempo audioFeatures) 0 then tempo audioFeatures / 120 else 1 in
  let phase := pulsePhase self + 0.1 * tempoMultiplier in
  {| flashIntensity :=
       if beat audioFeatures
       then JS.Math_min 1 (energy audioFeatures * beatConfidence audioFeatures)
       else flashIntensity self * 0.85;
     kickPulse := if kick audioFeatures then 1.0 else kickPulse self * 0.8;
     snarePulse := if snare audioFeatures then 1.0 else snarePulse self * 0.7;
     hihatPulse := if hihat audioFeatures then 1.0 else hihatPulse self * 0.6;
     energyPulse := energy audioFeatures;
     pulsePhase :=
       if JS.gt phase (JS.Math_PI * 2) then phase - JS.Math_PI * 2 else phase;
     colorShift := spectralCentroid audioFeatures * 360 |}.

Definition getFlashIntensity (self : t) : float := flashIntensity self.
Definition getKickPulse (self : t) : float := kickPulse self.
Definition getSnarePulse (self : t) : float := snarePulse self.
Definition getHihatPulse (self : t) : float := hihatPulse self.
Definition getEnergyPulse (self : t) : float := energyPulse self.
Definition getColorShift (self : t) : float := colorShift self.

End AdvancedVisualEffects.

(** ** class AudioVisualizer: the per-tick analysis *)

Module AudioVisualizer.

Inductive BeatType := kickBeat | snareBeat | generalBeat.

Record BeatEvent := {
  beatTime : float;
  beatEnergy : float;
  beatEventConfidence : float;
  beatType : BeatType
}.

Record OnsetEvent := {
  onsetTime : float;
  onsetSpectralFlux : float;
  onsetFrequency : float
}.

(** The part of the instance the analysis path reads and writes.  Canvas,
    particles and the Web Audio nodes belong to rendering and are outside
    the model. *)
Record t := {
  audioFeatures : AdvancedAudioFeatures;
  audioAnalyzer : ProfessionalAudioAnalyzer.t;
  beatDetector : AdvancedBeatDetector.t;
  tempoTracker : TempoTracker.t;
  rhythmAnalyzer : RhythmAnalyzer.t;
  visualEffects : AdvancedVisualEffects.t;
  energyHistory : list float;
  beatHistory : list BeatEvent;
  onsetHistory : list OnsetEvent
}.

(** The object literal of [resetAudioFeatures] (and of the field
    initialiser). *)
Definition zeroFeatures : AdvancedAudioFeatures :=
  {| energy := 0; bassEnergy := 0; midEnergy := 0; trebleEnergy := 0;
     subBassEnergy := 0; highMidEnergy := 0; presenceEnergy := 0;
     brillianceEnergy := 0; spectralCentroid := 0; spectralRolloff := 0;
     spectralFlux := 0; zeroCrossingRate := 0; tempo := 0; beat := false;
     kick := false; snare := false; hihat := false; onset := false;
     transient := false; harmonicContent := 0; percussiveContent := 0;
     loudness := 0; dynamicRange := 0; rhythmStrength := 0;
     beatConfidence := 0 |}.

Definition create : t :=
  {| audioFeatures := zeroFeatures;
     audioAnalyzer := ProfessionalAudioAnalyzer.create;
     beatDetector := AdvancedBeatDetector.create;
     tempoTracker := TempoTracker.create;
     rhythmAnalyzer := RhythmAnalyzer.create;
     visualEffects := AdvancedVisualEffects.create;
     energyHistory := [];
     beatHistory := [];
     onsetHistory := [] |}.

Definition set_audioFeatures (self : t) (f : AdvancedAudioFeatures) : t :=
  {| audioFeatures := f;
     audioAnalyzer := audioAnalyzer self;
     beatDetector := beatDetector self;
     tempoTracker := tempoTracker self;
     rhythmAnalyzer := rhythmAnalyzer self;
     visualEffects := visualEffects self;
     energyHistory := energyHistory self;
     beatHistory := beatHistory self;
     onsetHistory := onsetHistory self |}.

Definition resetAudioFeatures (self : t) : t :=
  set_audioFeatures self zeroFeatures.

Definition byte_to_number (b : byte) : float :=
  JS.of_Z (Z.of_N (Byte.to_N b)).

(** [floatFreqData[i] = frequencyData[i] / 255.0] *)
Definition toFloatFreqData (frequencyData : list byte) : list float :=
  map (fun b => JS.Math_fround (byte_to_number b / 255.0)) frequencyData.

(** [floatTimeData[i] = (timeData[i] - 128) / 128.0] for
    [i < frequencyData.length]; the array has the length of [timeData], and
    the entries the loop does not reach keep their initial 0. *)
Definition toFloatTimeData (frequencyData timeData : list byte)
  : list float :=
  map (fun '(i, b) =>
         if (i <? length frequencyData)%nat
         then JS.Math_fround ((byte_to_number b - 128) / 128.0)
         else 0)
      (combine (seq 0 (length timeData)) timeData).

(** The writes [processAudioData] makes into the analyzer's result. *)
Definition withBeat (f : AdvancedAudioFeatures) (r : BeatResult.t)
    (tempo' rhythmStrength' : float) : AdvancedAudioFeatures :=
  {| energy := energy f; bassEnergy := bassEnergy f;
     midEnergy := midEnergy f; trebleEnergy := trebleEnergy f;
     subBassEnergy := subBassEnergy f; highMidEnergy := highMidEnergy f;
     presenceEnergy := presenceEnergy f;
     brillianceEnergy := brillianceEnergy f;
     spectralCentroid := spectralCentroid f;
     spectralRolloff := spectralRolloff f;
     spectralFlux := spectralFlux f;
     zeroCrossingRate := zeroCrossingRate f;
     tempo := tempo';
     beat := BeatResult.beat r;
     kick := BeatResult.kick r;
     snare := BeatResult.snare r;
     hihat := BeatResult.hihat r;
     onset := onset f;
     transient := transient f;
     harmonicContent := harmonicContent f;
     percussiveContent := percussiveContent f;
     loudness := loudness f;
     dynamicRange := dynamicRange f;
     rhythmStrength := rhythmStrength';
     beatConfidence := BeatResult.confidence r |}.

(** [updateHistories]: the three histories after this tick. *)
Definition updateHistories (f : AdvancedAudioFeatures)
    (energyHistory0 : list float) (beatHistory0 : list BeatEvent)
    (onsetHistory0 : list OnsetEvent)
  : Perf (list float * list BeatEvent * list OnsetEvent) :=
  let energyHistory' := JS.push_capped 120 energyHistory0 (energy f) in
  beatHistory' <-
    (if beat f then
       now <- performance_now ;;
       ret (JS.push_capped 32 beatHistory0
              {| beatTime := now;
                 beatEnergy := energy f;
                 beatEventConfidence := beatConfidence f;
                 beatType := if kick f then kickBeat
                             else if snare f then snareBeat
                             else generalBeat |})
     else ret beatHistory0) ;;
  onsetHistory' <-
    (if onset f then
       now <- performance_now ;;
       ret (JS.push_capped 16 onsetHistory0
              {| onsetTime := now;
                 onsetSpectralFlux := spectralFlux f;
                 onsetFrequency := spectralCentroid f |})
     else ret onsetHistory0) ;;
  ret (energyHistory', beatHistory', onsetHistory').

Section WithPlatform.
Context {platform : Platform}.

(** [processAudioData].  The three [trigger...Effect] calls that end the
    method only toggle CSS classes and spawn particles. *)
Definition processAudioData (self : t) (frequencyData timeData : list byte)
  : Perf t :=
  let floatFreqData := toFloatFreqData frequencyData in
  let floatTimeData := toFloatTimeData frequencyData timeData in
  let energyLevel :=
    JS.sum floatFreqData / JS.of_nat (length floatFreqData) in
  if energyLevel <? 0.001 then ret (resetAudioFeatures self)
  else
    currentTime <- performance_now ;;
    let '(features, audioAnalyzer') :=
      ProfessionalAudioAnalyzer.analyze
        (audioAnalyzer self) floatFreqData floatTimeData currentTime in
    '(beatResult, beatDetector') <-
      AdvancedBeatDetector.process
        (beatDetector self) floatFreqData currentTime ;;
    '(tempo', tempoTracker') <-
      TempoTracker.update (tempoTracker self) beatResult ;;
    let '(rhythmStrength', rhythmAnalyzer') :=
      RhythmAnalyzer.analyze (rhythmAnalyzer self) floatFreqData in
    let features' := withBeat features beatResult tempo' rhythmStrength' in
    '(energyHistory', beatHistory', onsetHistory') <-
      updateHistories features' (energyHistory self) (beatHistory self)
                      (onsetHistory self) ;;
    ret {| audioFeatures := features';
           audioAnalyzer := audioAnalyzer';
           beatDetector := beatDetector';
           tempoTracker := tempoTracker';
           rhythmAnalyzer := rhythmAnalyzer';
           visualEffects :=
             AdvancedVisualEffects.update (visualEffects self) features';
           energyHistory := energyHistory';
           beatHistory := beatHistory';
           onsetHistory := onsetHistory' |}.
End WithPlatform.

End AudioVisualizer.

(** ** Call sequences

    The analyzer, the beat detector and the tempo tracker driven as
    [processAudioData] drives them: one [analyze], one [process] and one
    [update] per input tuple. *)

Module Session.

Record Tick := {
  frequency : list float;
  time : list float;
  timestamp : float
}.

Record Output := {
  features : AdvancedAudioFeatures;
  beatResult : BeatResult.t;
  tempoOut : float
}.

Record Instances := {
  analyzer : ProfessionalAudioAnalyzer.t;
  detector : AdvancedBeatDetector.t;
  tracker : TempoTracker.t
}.

Definition fresh : Instances :=
  {| analyzer := ProfessionalAudioAnalyzer.create;
     detector := AdvancedBeatDetector.create;
     tracker := TempoTracker.create |}.

Section WithPlatform.
Context {platform : Platform}.

Definition step (inst : Instances) (tick : Tick)
  : Perf (Output * Instances) :=
  let '(f, analyzer') :=
    ProfessionalAudioAnalyzer.analyze
      (analyzer inst) (frequency tick) (time tick) (timestamp tick) in
  '(r, detector') <-
    AdvancedBeatDetector.process
      (detector inst) (frequency tick) (timestamp tick) ;;
  '(bpm, tracker') <- TempoTracker.update (tracker inst) r ;;
  ret ({| features := f; beatResult := r; tempoOut := bpm |},
       {| analyzer := analyzer';
          detector := detector';
          tracker := tracker' |}).

Fixpoint run (inst : Instances) (ticks : list Tick) : Perf (list Output) :=
  match ticks with
  | [] => ret []
  | tick :: rest =>
      '(out, inst') <- step inst tick ;;
      outs <- run inst' rest ;;
      ret (out :: outs)
  end.
End WithPlatform.

End Session.

(** ** Observations on call sequences *)

(** A platform on which examples are evaluated: a square is the correctly
    rounded product.  The examples below apply [Math.pow] to exponent 2
    only. *)
Definition square_platform : Platform :=
  {| Math_pow := fun x y => if y =? 2 then x * x else nan |}.

(** A timeline given by its first readings; it stays at the last one. *)
Definition timeline_of (readings : list float) : Timeline :=
  fun n => nth n readings (last readings 0).

(** What [Math.min]/[Math.max] clamping to [[lo, hi]] computes. *)
Definition clamp (lo hi x : float) : float := JS.Math_max lo (JS.Math_min hi x).

(** [start * factor^n] as the source evaluates it, one [pulse *= factor]
    per tick; [decay factor n] is [factor^n], the value [n] ticks after the
    pulse was set to 1.0. *)
Fixpoint fade (start factor : float) (n : nat) : float :=
  match n with
  | O => start
  | S n' => fade start factor n' * factor
  end.

Definition decay (factor : float) (n : nat) : float := fade 1 factor n.

(** Following [p, p * factor, p * factor * factor, ...] for [fuel] steps:
    every value met lies in [[0, 1]] and the last one is a fixed point of
    the multiplication. *)
Fixpoint settles (factor p : float) (fuel : nat) : bool :=
  match fuel with
  | O => (0 <=? p) && (p <=? 1) && PrimFloat.Leibniz.eqb (p * factor) p
  | S fuel' => (0 <=? p) && (p <=? 1) && settles factor (p * factor) fuel'
  end.

(** Detections of one kind along a call sequence, each with the time it is
    attributed to.  Two consecutive detections are [gap]-separated when the
    source's own subtraction of their times exceeds [gap]. *)
Definition separated (gap : float) (detections : list (float * bool)) : Prop :=
  forall pre t1 mid t2 post,
    detections = pre ++ (t1, true) :: mid ++ (t2, true) :: post ->
    Forall (fun d => snd d = false) mid ->
    (gap <? t2 - t1) = true /\ (gap <=? t2 - t1) = true.

Fixpoint strictly_increasing (times : list float) : Prop :=
  match times with
  | t1 :: ((t2 :: _) as rest) => (t1 <? t2) = true /\ strictly_increasing rest
  | _ => True
  end.

Module Trace.

(** One call of [AdvancedBeatDetector.process]: its arguments, the clock
    readings its three drum detectors took, its result and the state it
    left. *)
Record Event := {
  timestamp : float;
  kickReading : float;
  snareReading : float;
  hihatReading : float;
  result : BeatResult.t;
  after : AdvancedBeatDetector.t
}.

Section WithPlatform.
Context {platform : Platform}.

Fixpoint process_all (self : AdvancedBeatDetector.t)
    (calls : list (list float * float)) (tl : Timeline) (n : nat)
  : list Event :=
  match calls with
  | [] => []
  | (spectrum, currentTime) :: rest =>
      let '((r, self'), n') :=
        AdvancedBeatDetector.process self spectrum currentTime tl n in
      {| timestamp := currentTime;
         kickReading := tl n;
         snareReading := tl (S n);
         hihatReading := tl (S (S n));
         result := r;
         after := self' |}
      :: process_all self' rest tl n'
  end.

(** The tempo returned by each call of [TempoTracker.update], with the
    state it left. *)
Fixpoint update_all (self : TempoTracker.t) (beats : list BeatResult.t)
    (tl : Timeline) (n : nat) : list (float * TempoTracker.t) :=
  match beats with
  | [] => []
  | b :: rest =>
      let '((bpm, self'), n') := TempoTracker.update self b tl n in
      (bpm, self') :: update_all self' rest tl n'
  end.
End WithPlatform.

Definition beats_by_timestamp (events : list Event) : list (float * bool) :=
  map (fun e => (timestamp e, BeatResult.beat (result e))) events.
Definition kicks_by_timestamp (events : list Event) : list (float * bool) :=
  map (fun e => (timestamp e, BeatResult.kick (result e))) events.
Definition snares_by_timestamp (events : list Event) : list (float * bool) :=
  map (fun e => (timestamp e, BeatResult.snare (result e))) events.
Definition hihats_by_timestamp (events : list Event) : list (float * bool) :=
  map (fun e => (timestamp e, BeatResult.hihat (result e))) events.

Definition kicks_by_reading (events : list Event) : list (float * bool) :=
  map (fun e => (kickReading e, BeatResult.kick (result e))) events.
Definition snares_by_reading (events : list Event) : list (float * bool) :=
  map (fun e => (snareReading e, BeatResult.snare (result e))) events.
Definition hihats_by_reading (events : list Event) : list (float * bool) :=
  map (fun e => (hihatReading e, BeatResult.hihat (result e))) events.

(** The part of a session output that no clock reading can reach. *)
Definition clock_free (o : Session.Output)
  : AdvancedAudioFeatures * (bool * float * float * float) :=
  (Session.features o,
   (BeatResult.beat (Session.beatResult o),
    BeatResult.confidence (Session.beatResult o),
    BeatResult.energy (Session.beatResult o),
    BeatResult.bassEnergy (Session.beatResult o))).

(** [visualEffects.update] called for each feature vector in turn. *)
Definition update_effects (self : AdvancedVisualEffects.t)
    (calls : list AdvancedAudioFeatures) : AdvancedVisualEffects.t :=
  fold_left AdvancedVisualEffects.update calls self.

End Trace.

(** A JavaScript call either returns a value or throws. *)
Inductive Completion (A : Type) : Type :=
| Returns (value : A)
| Throws (message : list byte).
Arguments Returns {A} value.
Arguments Throws {A} message.

(** [analyze] as a completion.  Its body holds no [throw]; indexing a typed
    array out of range yields [undefined], and arithmetic never throws. *)
Definition analyze_call (self : ProfessionalAudioAnalyzer.t)
    (frequencyData timeData : list float) (currentTime : float)
  : Completion (AdvancedAudioFeatures * ProfessionalAudioAnalyzer.t) :=
  Returns (ProfessionalAudioAnalyzer.analyze self frequencyData timeData
                                             currentTime).

(** The fields of a feature vector [analyze] derives from the frequency
    buffer, and those it derives from the time buffer. *)
Definition spectral_fields (f : AdvancedAudioFeatures) :=
  (energy f, bassEnergy f, subBassEnergy f, midEnergy f, highMidEnergy f,
   trebleEnergy f, presenceEnergy f, brillianceEnergy f, spectralCentroid f,
   spectralRolloff f, spectralFlux f, harmonicContent f, loudness f,
   dynamicRange f, onset f).

Definition temporal_fields (f : AdvancedAudioFeatures) :=
  (zeroCrossingRate f, percussiveContent f, transient f).

(** The onset rule as the analyzer's comments describe it: the flux of this
    tick against the average of the stored flux values. *)
Definition onset_rule (storedFlux : list float) (currentFlux : float) : bool :=
  let avgFlux := JS.sum storedFlux / JS.of_nat (Nat.max (length storedFlux) 1) in
  JS.gt currentFlux (avgFlux * 1.5) && JS.gt currentFlux 0.1.

(** A detection sequence produced behind a refractory gate: a detection at
    time [t] requires [t - last > gap], and moves [last] to [t]. *)
Fixpoint gated (gap last : float) (detections : list (float * bool)) : Prop :=
  match detections with
  | [] => True
  | (t, fired) :: rest =>
      (fired = true -> (gap <? t - last) = true)
      /\ gated gap (if fired then t else last) rest
  end.

(** A computation that depends on the timeline through its values only. *)
Definition extensional {A} (m : Perf A) : Prop :=
  forall tl1 tl2 n, (forall k, tl1 k = tl2 k) -> m tl1 n = m tl2 n.

(** The part of the session state that no clock reading can reach. *)
Definition clock_free_state (i : Session.Instances) :=
  (Session.analyzer i,
   AdvancedBeatDetector.energyBuffer (Session.detector i),
   AdvancedBeatDetector.lastBeatTime (Session.detector i),
   AdvancedBeatDetector.minBeatInterval (Session.detector i)).

(** Two 128-bin spectra of equal total energy (twelve bins at 1, the others
    at 0).  [quiet_spectrum] leaves the sub-bass bins 1 to 7 empty;
    [kick_spectrum] fills bins 0 to 11, which puts the sub-bass energy above
    1.4 times its average after a quiet tick and the bass energy above 0.8.
    Bins 25 and above are 0 in both, so the snare detector never calls
    [Math.pow]. *)
Definition quiet_spectrum : list float :=
  [1] ++ repeat 0 7 ++ repeat 1 11 ++ repeat 0 109.

Definition kick_spectrum : list float := repeat 1 12 ++ repeat 0 116.

Definition silence128 : list float := repeat 0 128.

(** A recorded session of three ticks, the clock as it ran while the ticks
    were recorded, and the clock of a replay that feeds the same ticks back
    to back.  Each tick takes three readings (kick, snare, hi-hat). *)
Definition recorded_ticks : list Session.Tick :=
  [ {| Session.frequency := quiet_spectrum; Session.time := silence128;
       Session.timestamp := 1000 |};
    {| Session.frequency := kick_spectrum; Session.time := silence128;
       Session.timestamp := 1016 |};
    {| Session.frequency := kick_spectrum; Session.time := silence128;
       Session.timestamp := 1300 |} ].

Definition live_clock : Timeline :=
  timeline_of [1000.25; 1000.25; 1000.25; 1016.25; 1016.25; 1016.25;
               1300.25; 1300.25; 1300.25].

Definition replay_clock : Timeline :=
  timeline_of [5000.25; 5000.25; 5000.25; 5000.75; 5000.75; 5000.75;
               5001.25; 5001.25; 5001.25].

(** Three calls of [process] whose timestamps are 1000, 1016 and 1215.5,
    while the drum detectors read the clock a little later in each call:
    at 1000.25, 1016.25 and 1216.5. *)
Definition jitter_calls : list (list float * float) :=
  [(quiet_spectrum, 1000); (kick_spectrum, 1016); (kick_spectrum, 1215.5)].

Definition jitter_clock : Timeline :=
  timeline_of [1000.25; 1000.25; 1000.25; 1016.25; 1016.25; 1016.25;
               1216.5; 1216.5; 1216.5].

(** A feature vector that reports all four events with full energy and
    confidence, and one that reports none. *)
Definition all_events : AdvancedAudioFeatures :=
  {| energy := 1; bassEnergy := 1; midEnergy := 0; trebleEnergy := 0;
     subBassEnergy := 1; highMidEnergy := 0; presenceEnergy := 0;
     brillianceEnergy := 0; spectralCentroid := 0; spectralRolloff := 0;
     spectralFlux := 0; zeroCrossingRate := 0; tempo := 0; beat := true;
     kick := true; snare := true; hihat := true; onset := false;
     transient := false; harmonicContent := 0; percussiveContent := 0;
     loudness := 0; dynamicRange := 0; rhythmStrength := 0;
     beatConfidence := 1 |}.

Definition no_event : AdvancedAudioFeatures := AudioVisualizer.zeroFeatures.

(** ** Binary64 values

    What the proofs below say about a number, in terms of its decoding
    [Prim2SF] as sign, mantissa and exponent. *)

(** The value of a finite binary64 number in units of 2^-1074, the spacing
    of the smallest subnormals: an integer. *)
Definition scaled (m : positive) (e : Z) : Z := (Zpos m * 2 ^ (e + 1074))%Z.

(** A shift record that has lost no bit. *)
Definition exact_record (mrs : shr_record) : Prop :=
  shr_r mrs = false /\ shr_s mrs = false.

(** The step that ends [binary_round_aux]: a rounded mantissa of at most
    54 bits and its exponent packed as a number. *)
Definition pack (s : bool) (m e : Z) : spec_float :=
  if (m =? 0)%Z then S754_zero s
  else if (m =? 2 ^ 53)%Z then
         if (e + 1 <=? 971)%Z then S754_finite s (2 ^ 52)%positive (e + 1)%Z
         else S754_infinity s
       else if (e <=? 971)%Z then S754_finite s (Z.to_pos m) e
            else S754_infinity s.

(** A number with a clear sign bit: +0, a positive finite number or
    +infinity. *)
Definition sf_unsigned (f : spec_float) : Prop :=
  match f with
  | S754_zero false | S754_infinity false | S754_finite false _ _ => True
  | _ => False
  end.

(** The same, or NaN. *)
Definition sf_unsigned_or_nan (f : spec_float) : Prop :=
  match f with
  | S754_nan => True
  | S754_zero s | S754_infinity s | S754_finite s _ _ => s = false
  end.

Definition unsigned (x : float) : Prop := sf_unsigned (Prim2SF x).

Definition unsigned_or_nan (x : float) : Prop :=
  sf_unsigned_or_nan (Prim2SF x).

(** [lo <= x && x <= hi] of the source. *)
Definition in_band (lo hi x : float) : Prop :=
  (lo <=? x) = true /\ (x <=? hi) = true.

(** [x] is a positive finite number of scaled value [v]. *)
Definition represents (x : float) (v : Z) : Prop :=
  exists m e, Prim2SF x = S754_finite false m e /\ scaled m e = v.

(** ** What the claims state of one call *)

(** The running average [process] compares the energy with, recomputed from
    the state the call left. *)
Definition averageEnergy (self : AdvancedBeatDetector.t) : float :=
  JS.sum (AdvancedBeatDetector.energyBuffer self)
  / JS.of_nat (length (AdvancedBeatDetector.energyBuffer self)).

(** One call of [process]: the confidence lies in [[0, 1]], and on a beat it
    is the clamped excess of the energy over average times threshold. *)
Definition confidence_spec (e : Trace.Event) : Prop :=
  let r := Trace.result e in
  let self' := Trace.after e in
  (0 <=? BeatResult.confidence r) = true
  /\ (BeatResult.confidence r <=? 1) = true
  /\ (BeatResult.beat r = true ->
      BeatResult.confidence r
      = clamp 0 1
          ((BeatResult.energy r
            / (averageEnergy self' * AdvancedBeatDetector.adaptiveThreshold self')
            - 1) * 2)).

(** An interval the tracker accepts: the tempo it implies is in range. *)
Definition accepted (interval : float) : Prop :=
  in_band 60 200 (60000 / interval).

(** One call of [TempoTracker.update], with the state it left: the tempo is
    0 while fewer than four intervals have been accepted and lies in
    [[60, 200]] afterwards; the interval history holds at most 16 accepted
    intervals and the tempo buffer at most 8 tempos in range. *)
Definition tempo_spec (out : float * TempoTracker.t) : Prop :=
  let '(bpm, self) := out in
  ((length (TempoTracker.beatIntervals self) < 4)%nat /\ bpm = 0
   \/ (4 <= length (TempoTracker.beatIntervals self))%nat
      /\ (60 <=? bpm) = true /\ (bpm <=? 200) = true)
  /\ Forall accepted (TempoTracker.beatIntervals self)
  /\ (length (TempoTracker.beatIntervals self) <= 16)%nat
  /\ Forall (in_band 60 200) (TempoTracker.tempoBuffer self)
  /\ (length (TempoTracker.tempoBuffer self) <= 8)%nat.

Definition tempo_inv (self : TempoTracker.t) : Prop :=
  tempo_spec (TempoTracker.currentTempo self, self).

(** Two calls of [process]: a quiet spectrum, then a loud one 300 ms
    later, on which the beat fires. *)
Definition loud_calls : list (list float * float) :=
  [(repeat 0.125 128, 1000); (repeat 1 128, 1300)].

(** Six beats, half a second apart by the clock [update] reads. *)
Definition steady_beats : list BeatResult.t :=
  repeat {| BeatResult.beat := true; BeatResult.kick := false;
            BeatResult.snare := false; BeatResult.hihat := false;
            BeatResult.confidence := 1; BeatResult.energy := 1;
            BeatResult.bassEnergy := 0 |} 6.

Definition steady_clock : Timeline :=
  timeline_of [1000; 1500; 2000; 2500; 3000; 3500].

(** * Properties *)

(** ** Comparisons of binary64 numbers *)

Section Comparisons.

Lemma ltb_leb (x y : float) : (x <? y) = true -> (x <=? y) = true.
Proof.
  rewrite ltb_spec, leb_spec. unfold SFltb, SFleb.
  destruct (SFcompare (Prim2SF x) (Prim2SF y)) as [[ | | ]|];
    congruence.
Qed.

Lemma sub_self_not_positive (x : float) : JS.gt (x - x) 0 = false.
Proof.
  unfold JS.gt. rewrite ltb_spec, sub_spec.
  destruct (Prim2SF x) as [s|s| |s m e];
    try (destruct s; reflexivity); try reflexivity.
  unfold SF64sub, SFsub. cbv zeta.
  rewrite Z.sub_diag. reflexivity.
Qed.

End Comparisons.

(** ** ProfessionalAudioAnalyzer *)

Section Analyzer.

Import ProfessionalAudioAnalyzer.

Lemma flux_loop_same (spectrum : list float) (flux : float) :
  flux_loop spectrum spectrum flux = flux.
Proof.
  revert flux.
  induction spectrum as [|s rest IH]; intros flux; cbn [flux_loop].
  - reflexivity.
  - rewrite sub_self_not_positive. apply IH.
Qed.

Lemma previousSpectrum_after_flux (self : t) (spectrum : list float) :
  previousSpectrum (snd (calculateSpectralFlux self spectrum)) = spectrum.
Proof.
  unfold calculateSpectralFlux. destruct (negb _); reflexivity.
Qed.

(** Called on the spectrum the analyzer has just stored, [detectOnset]
    measures a flux of 0 and answers [false]. *)
Lemma detectOnset_after_flux (self : t) (spectrum : list float) :
  previousSpectrum self = spectrum ->
  fst (detectOnset self spectrum) = false.
Proof.
  intros Hprev. unfold detectOnset, calculateSpectralFlux.
  rewrite Hprev, Nat.eqb_refl. cbn [negb fst].
  rewrite flux_loop_same. apply andb_false_r.
Qed.

Lemma onset_never_fires (self : t) (frequencyData timeData : list float)
    (currentTime : float) :
  onset (fst (analyze self frequencyData timeData currentTime)) = false.
Proof.
  unfold analyze.
  pose proof (previousSpectrum_after_flux self frequencyData) as Hprev.
  destruct (calculateSpectralFlux self frequencyData) as [flux self1].
  cbn [snd] in Hprev.
  pose proof (detectOnset_after_flux self1 frequencyData Hprev) as Hon.
  destruct (detectOnset self1 frequencyData) as [isOnset self2].
  cbn [fst onset] in *. exact Hon.
Qed.

(** C2 (the code departs from the claim).  Whatever the state and the
    input, [analyze] returns [onset = false]: the flux behind the
    [spectralFlux] field has already replaced [previousSpectrum] when
    [detectOnset] measures its own flux, which is therefore 0.  On the
    second of the calls [analyze([0],[0],0)], [analyze([1],[0],16)] the
    flux is 1, the stored flux values are [[0]], the rule of the claim
    holds, and the flag is still [false]. *)
Theorem analyze_onset_ignores_flux :
  (forall self frequencyData timeData currentTime,
      onset (fst (analyze self frequencyData timeData currentTime)) = false)
  /\ (let first := analyze create [0] [0] 0 in
      let second := analyze (snd first) [1] [0] 16 in
      spectralFluxBuffer (snd first) = [0]
      /\ spectralFlux (fst second) = 1
      /\ onset_rule (spectralFluxBuffer (snd first))
                    (spectralFlux (fst second)) = true
      /\ onset (fst second) = false).
Proof.
  split.
  - apply onset_never_fires.
  - vm_compute. repeat split.
Qed.

(** C3 (the code departs from the claim).  On empty buffers a fresh
    analyzer returns NaN in eight numeric fields and 1 in
    [spectralRolloff]: the divisions by the length in [calculateEnergy],
    [calculateBandEnergy], [calculateZeroCrossingRate] and their siblings
    are not guarded, unlike the one in [calculateSpectralCentroid]. *)
Theorem analyze_empty_input :
  fst (analyze create [] [] 0)
  = {| energy := nan; bassEnergy := nan; midEnergy := -0;
       trebleEnergy := -0; subBassEnergy := nan; highMidEnergy := -0;
       presenceEnergy := -0; brillianceEnergy := -0; spectralCentroid := 0;
       spectralRolloff := 1; spectralFlux := 0; zeroCrossingRate := nan;
       tempo := 0; beat := false; kick := false; snare := false;
       hihat := false; onset := false; transient := false;
       harmonicContent := nan; percussiveContent := nan; loudness := nan;
       dynamicRange := nan; rhythmStrength := 0; beatConfidence := 0 |}.
Proof. vm_compute. reflexivity. Qed.

(** C8 (counterexample).  Four frequency bins against one time sample:
    [analyze] returns a feature vector. *)
Lemma analyze_accepts_mismatched_lengths :
  length [1; 0.5; 0.25; 0] <> length [0.5]
  /\ exists f self',
      analyze_call create [1; 0.5; 0.25; 0] [0.5] 0 = Returns (f, self')
      /\ energy f = 0.57282196186947998
      /\ zeroCrossingRate f = 0.
Proof.
  split; [discriminate|].
  eexists; eexists. split; [reflexivity|].
  vm_compute. split; reflexivity.
Qed.

(** C8 (amended).  [analyze] returns on every pair of buffers, whatever
    their lengths; the spectral fields do not depend on the time buffer
    and the temporal fields depend on neither the frequency buffer nor
    the analyzer state, so neither buffer is cut to the length of the
    other. *)
Theorem analyze_never_rejects
    (self self' : t) (frequencyData frequencyData' : list float)
    (timeData timeData' : list float) (currentTime currentTime' : float) :
  (exists r, analyze_call self frequencyData timeData currentTime = Returns r)
  /\ spectral_fields (fst (analyze self frequencyData timeData currentTime))
     = spectral_fields (fst (analyze self frequencyData timeData' currentTime'))
  /\ temporal_fields (fst (analyze self frequencyData timeData currentTime))
     = temporal_fields (fst (analyze self' frequencyData' timeData currentTime')).
Proof.
  split; [eexists; reflexivity|].
  unfold analyze.
  destruct (calculateSpectralFlux self frequencyData) as [flux self1].
  destruct (detectOnset self1 frequencyData) as [o self2].
  destruct (calculateSpectralFlux self' frequencyData') as [flux' self1'].
  destruct (detectOnset self1' frequencyData') as [o' self2'].
  split; reflexivity.
Qed.

End Analyzer.

(** ** Clock readings *)

Section Extensional.

Lemma extensional_ret {A} (a : A) : extensional (ret a).
Proof. intros tl1 tl2 n _. reflexivity. Qed.

Lemma extensional_now : extensional performance_now.
Proof. intros tl1 tl2 n H. unfold performance_now. now rewrite H. Qed.

Lemma extensional_bind {A B} (m : Perf A) (k : A -> Perf B) :
  extensional m -> (forall a, extensional (k a)) -> extensional (bind m k).
Proof.
  intros Hm Hk tl1 tl2 n H. unfold bind.
  rewrite (Hm tl1 tl2 n H). destruct (m tl2 n) as [a n'].
  now apply Hk.
Qed.

End Extensional.

Ltac perf_ext :=
  repeat first
    [ apply extensional_ret
    | apply extensional_now
    | apply extensional_bind; [|intros ?]
    | match goal with
      | |- extensional (let '(_, _) := ?p in _) => destruct p
      | |- extensional (if ?b then _ else _) => destruct b
      end ].

Ltac unfold_process :=
  cbv [AdvancedBeatDetector.process KickDetector.detect SnareDetector.detect
       HihatDetector.detect bind ret performance_now].

(** ** Refractory gates *)

Section Gates.

Lemma gated_quiet gap last mid t2 post :
  Forall (fun d : float * bool => snd d = false) mid ->
  gated gap last (mid ++ (t2, true) :: post) ->
  (gap <? t2 - last) = true.
Proof.
  induction 1 as [|[t b] mid Hb _ IH]; cbn [app gated].
  - intros [H _]. now apply H.
  - cbn [snd] in Hb. subst b. intros [_ H]. now apply IH.
Qed.

Lemma gated_separated gap last detections :
  gated gap last detections -> separated gap detections.
Proof.
  intros Hg pre t1 mid t2 post -> Hmid.
  revert last Hg.
  induction pre as [|[t b] pre IH]; intros last; cbn [app gated].
  - intros [_ Hg].
    pose proof (gated_quiet gap t1 mid t2 post Hmid Hg) as H.
    split; [exact H | now apply ltb_leb].
  - intros [_ Hg]. now apply (IH _ Hg).
Qed.

End Gates.

(** ** AdvancedBeatDetector and the session *)

Section Detector.

Context {platform : Platform}.
Import AdvancedBeatDetector.

Lemma process_beat_gate self spectrum currentTime tl n :
  let '(r, self') := fst (process self spectrum currentTime tl n) in
  (BeatResult.beat r = true ->
   (minBeatInterval self <? currentTime - lastBeatTime self) = true)
  /\ lastBeatTime self'
     = (if BeatResult.beat r then currentTime else lastBeatTime self)
  /\ minBeatInterval self' = minBeatInterval self.
Proof.
  unfold_process.
  cbn [fst snd BeatResult.beat lastBeatTime minBeatInterval].
  repeat split.
  intros H. apply andb_prop in H. exact (proj2 H).
Qed.

Lemma process_kick_gate self spectrum currentTime tl n :
  let '(r, self') := fst (process self spectrum currentTime tl n) in
  (BeatResult.kick r = true ->
   (200 <? tl n - KickDetector.lastKickTime (kickDetector self)) = true)
  /\ KickDetector.lastKickTime (kickDetector self')
     = (if BeatResult.kick r then tl n
        else KickDetector.lastKickTime (kickDetector self)).
Proof.
  unfold_process.
  cbn [fst snd BeatResult.kick kickDetector KickDetector.lastKickTime].
  repeat split.
  intros H. apply andb_prop in H. exact (proj2 H).
Qed.

Lemma process_snare_gate self spectrum currentTime tl n :
  let '(r, self') := fst (process self spectrum currentTime tl n) in
  (BeatResult.snare r = true ->
   (180 <? tl (S n) - SnareDetector.lastSnareTime (snareDetector self)) = true)
  /\ SnareDetector.lastSnareTime (snareDetector self')
     = (if BeatResult.snare r then tl (S n)
        else SnareDetector.lastSnareTime (snareDetector self)).
Proof.
  unfold_process.
  cbn [fst snd BeatResult.snare snareDetector SnareDetector.lastSnareTime].
  repeat split.
  intros H. apply andb_prop in H. exact (proj2 H).
Qed.

Lemma process_hihat_gate self spectrum currentTime tl n :
  let '(r, self') := fst (process self spectrum currentTime tl n) in
  (BeatResult.hihat r = true ->
   (120 <? tl (S (S n)) - HihatDetector.lastHihatTime (hihatDetector self)) = true)
  /\ HihatDetector.lastHihatTime (hihatDetector self')
     = (if BeatResult.hihat r then tl (S (S n))
        else HihatDetector.lastHihatTime (hihatDetector self)).
Proof.
  unfold_process.
  cbn [fst snd BeatResult.hihat hihatDetector HihatDetector.lastHihatTime].
  repeat split.
  intros H. apply andb_prop in H. exact (proj2 H).
Qed.

Lemma beats_gated calls : forall self tl n,
  gated (minBeatInterval self) (lastBeatTime self)
        (Trace.beats_by_timestamp (Trace.process_all self calls tl n)).
Proof.
  induction calls as [|[spectrum currentTime] rest IH]; intros self tl n.
  - exact I.
  - cbn [Trace.process_all].
    pose proof (process_beat_gate self spectrum currentTime tl n) as Hg.
    destruct (process self spectrum currentTime tl n) as [[r self'] n'].
    cbn [fst] in Hg. destruct Hg as (Hfire & Hlast & Hmin).
    cbn [Trace.beats_by_timestamp map Trace.timestamp Trace.result gated].
    split; [exact Hfire|].
    rewrite <- Hlast, <- Hmin. apply IH.
Qed.

Lemma kicks_gated calls : forall self tl n,
  gated 200 (KickDetector.lastKickTime (kickDetector self))
        (Trace.kicks_by_reading (Trace.process_all self calls tl n)).
Proof.
  induction calls as [|[spectrum currentTime] rest IH]; intros self tl n.
  - exact I.
  - cbn [Trace.process_all].
    pose proof (process_kick_gate self spectrum currentTime tl n) as Hg.
    destruct (process self spectrum currentTime tl n) as [[r self'] n'].
    cbn [fst] in Hg. destruct Hg as (Hfire & Hlast).
    cbn [Trace.kicks_by_reading map Trace.kickReading Trace.result gated].
    split; [exact Hfire|].
    rewrite <- Hlast. apply IH.
Qed.

Lemma snares_gated calls : forall self tl n,
  gated 180 (SnareDetector.lastSnareTime (snareDetector self))
        (Trace.snares_by_reading (Trace.process_all self calls tl n)).
Proof.
  induction calls as [|[spectrum currentTime] rest IH]; intros self tl n.
  - exact I.
  - cbn [Trace.process_all].
    pose proof (process_snare_gate self spectrum currentTime tl n) as Hg.
    destruct (process self spectrum currentTime tl n) as [[r self'] n'].
    cbn [fst] in Hg. destruct Hg as (Hfire & Hlast).
    cbn [Trace.snares_by_reading map Trace.snareReading Trace.result gated].
    split; [exact Hfire|].
    rewrite <- Hlast. apply IH.
Qed.

Lemma hihats_gated calls : forall self tl n,
  gated 120 (HihatDetector.lastHihatTime (hihatDetector self))
        (Trace.hihats_by_reading (Trace.process_all self calls tl n)).
Proof.
  induction calls as [|[spectrum currentTime] rest IH]; intros self tl n.
  - exact I.
  - cbn [Trace.process_all].
    pose proof (process_hihat_gate self spectrum currentTime tl n) as Hg.
    destruct (process self spectrum currentTime tl n) as [[r self'] n'].
    cbn [fst] in Hg. destruct Hg as (Hfire & Hlast).
    cbn [Trace.hihats_by_reading map Trace.hihatReading Trace.result gated].
    split; [exact Hfire|].
    rewrite <- Hlast. apply IH.
Qed.

(** C4 (amended).  Along every call sequence of a fresh detector, two
    consecutive beats have call timestamps more than 250 ms apart, and two
    consecutive kicks, snares or hi-hats have the clock readings taken by
    their own detectors more than 200, 180 or 120 ms apart. *)
Theorem refractory_windows (calls : list (list float * float))
    (tl : Timeline) (n : nat) :
  let events := Trace.process_all create calls tl n in
  separated 250 (Trace.beats_by_timestamp events)
  /\ separated 200 (Trace.kicks_by_reading events)
  /\ separated 180 (Trace.snares_by_reading events)
  /\ separated 120 (Trace.hihats_by_reading events).
Proof.
  cbv zeta. split; [|split; [|split]].
  - exact (gated_separated _ _ _ (beats_gated calls create tl n)).
  - exact (gated_separated _ _ _ (kicks_gated calls create tl n)).
  - exact (gated_separated _ _ _ (snares_gated calls create tl n)).
  - exact (gated_separated _ _ _ (hihats_gated calls create tl n)).
Qed.

(** C10.  A call of [process] that reports no beat reports a confidence
    of exactly 0. *)
Theorem no_beat_no_confidence (self : t) (spectrum : list float)
    (currentTime : float) (tl : Timeline) (n : nat) :
  let r := fst (fst (process self spectrum currentTime tl n)) in
  BeatResult.beat r = false -> BeatResult.confidence r = 0.
Proof.
  unfold_process. cbn [fst snd BeatResult.beat BeatResult.confidence].
  intros ->. reflexivity.
Qed.

End Detector.

(** C10 (witness): the first call of a fresh detector. *)
Lemma no_beat_no_confidence_witness :
  let r := fst (fst (AdvancedBeatDetector.process
                       (platform := square_platform)
                       AdvancedBeatDetector.create kick_spectrum 1000
                       jitter_clock O)) in
  BeatResult.beat r = false /\ BeatResult.confidence r = 0.
Proof.
  cbv zeta. split.
  - vm_compute. reflexivity.
  - apply (no_beat_no_confidence (platform := square_platform)).
    vm_compute. reflexivity.
Defined.

(** C4 (counterexample).  The timestamps 1000, 1016, 1215.5 increase
    strictly; the kick fires in the second and in the third call, whose
    timestamps are 199.5 ms apart. *)
Lemma kick_refractory_by_timestamp_fails :
  let events := Trace.process_all (platform := square_platform)
                  AdvancedBeatDetector.create jitter_calls jitter_clock O in
  strictly_increasing (map Trace.timestamp events)
  /\ Trace.kicks_by_timestamp events
     = [(1000, false); (1016, true); (1215.5, true)]
  /\ ~ separated 200 (Trace.kicks_by_timestamp events).
Proof.
  cbv zeta.
  assert (Hk : Trace.kicks_by_timestamp
                 (Trace.process_all (platform := square_platform)
                    AdvancedBeatDetector.create jitter_calls jitter_clock O)
               = [(1000, false); (1016, true); (1215.5, true)])
    by (vm_compute; reflexivity).
  split; [|split].
  - vm_compute. repeat split.
  - exact Hk.
  - rewrite Hk. intros Hsep.
    destruct (Hsep [(1000, false)] 1016 [] 1215.5 [] eq_refl (Forall_nil _))
      as [Hlt _].
    vm_compute in Hlt. discriminate Hlt.
Qed.

(** ** Determinism of a session *)

Section SessionClock.

Context {platform : Platform}.

Lemma kick_extensional self spectrum bass :
  extensional (KickDetector.detect self spectrum bass).
Proof. unfold KickDetector.detect. perf_ext. Qed.

Lemma snare_extensional self spectrum :
  extensional (SnareDetector.detect self spectrum).
Proof. unfold SnareDetector.detect. perf_ext. Qed.

Lemma hihat_extensional self spectrum :
  extensional (HihatDetector.detect self spectrum).
Proof. unfold HihatDetector.detect. perf_ext. Qed.

Lemma process_extensional self spectrum currentTime :
  extensional (AdvancedBeatDetector.process self spectrum currentTime).
Proof.
  unfold AdvancedBeatDetector.process. cbv zeta.
  apply extensional_bind; [apply kick_extensional|intros [k kd]].
  apply extensional_bind; [apply snare_extensional|intros [s sd]].
  apply extensional_bind; [apply hihat_extensional|intros [h hd]].
  apply extensional_ret.
Qed.

Lemma update_extensional self r :
  extensional (TempoTracker.update self r).
Proof. unfold TempoTracker.update. perf_ext. Qed.

Lemma step_extensional inst tick : extensional (Session.step inst tick).
Proof.
  unfold Session.step.
  destruct (ProfessionalAudioAnalyzer.analyze _ _ _ _) as [f a'].
  apply extensional_bind; [apply process_extensional|intros [r d']].
  apply extensional_bind; [apply update_extensional|intros [bpm t']].
  apply extensional_ret.
Qed.

Lemma run_extensional ticks :
  forall inst, extensional (Session.run inst ticks).
Proof.
  induction ticks as [|tick rest IH]; intros inst; cbn [Session.run].
  - apply extensional_ret.
  - apply extensional_bind; [apply step_extensional|intros [o inst']].
    apply extensional_bind; [apply IH|intros outs].
    apply extensional_ret.
Qed.

(** One step started from two states that agree outside the reach of the
    clock, under any two timelines. *)
Lemma step_clock_free i1 i2 tick tl1 tl2 n1 n2 :
  clock_free_state i1 = clock_free_state i2 ->
  Trace.clock_free (fst (fst (Session.step i1 tick tl1 n1)))
  = Trace.clock_free (fst (fst (Session.step i2 tick tl2 n2)))
  /\ clock_free_state (snd (fst (Session.step i1 tick tl1 n1)))
     = clock_free_state (snd (fst (Session.step i2 tick tl2 n2))).
Proof.
  unfold clock_free_state. intros H. injection H as Ha Hb Hl Hm.
  unfold Session.step. rewrite Ha.
  destruct (ProfessionalAudioAnalyzer.analyze _ _ _ _) as [f a'].
  unfold_process. rewrite Hb, Hl, Hm.
  repeat match goal with
         | |- context [TempoTracker.update ?s ?r ?tl ?n] =>
             destruct (TempoTracker.update s r tl n) as [[? ?] ?]
         end.
  cbn. split; reflexivity.
Qed.

Lemma run_clock_free ticks : forall i1 i2 tl1 tl2 n1 n2,
  clock_free_state i1 = clock_free_state i2 ->
  map Trace.clock_free (fst (Session.run i1 ticks tl1 n1))
  = map Trace.clock_free (fst (Session.run i2 ticks tl2 n2)).
Proof.
  induction ticks as [|tick rest IH]; intros i1 i2 tl1 tl2 n1 n2 Heq.
  - reflexivity.
  - cbn [Session.run]. unfold bind.
    destruct (step_clock_free i1 i2 tick tl1 tl2 n1 n2 Heq) as [Hout Hst].
    destruct (Session.step i1 tick tl1 n1) as [[o1 i1'] n1'].
    destruct (Session.step i2 tick tl2 n2) as [[o2 i2'] n2'].
    cbn [fst snd] in Hout, Hst.
    specialize (IH i1' i2' tl1 tl2 n1' n2' Hst).
    destruct (Session.run i1' rest tl1 n1') as [outs1 m1].
    destruct (Session.run i2' rest tl2 n2') as [outs2 m2].
    cbn [fst ret map] in *. now rewrite Hout, IH.
Qed.

(** C1 (amended).  Two fresh sets of instances fed the same tuples return
    the same feature vectors and the same beat flag, confidence, energy
    and bass energy under any two clocks; they return the same kick, snare
    and hi-hat flags and the same tempo as well when
    [performance.now()] returns the same readings in both runs. *)
Theorem session_deterministic_up_to_clock (ticks : list Session.Tick)
    (tl1 tl2 : Timeline) (n : nat) :
  map Trace.clock_free (fst (Session.run Session.fresh ticks tl1 n))
  = map Trace.clock_free (fst (Session.run Session.fresh ticks tl2 n))
  /\ ((forall k, tl1 k = tl2 k) ->
      Session.run Session.fresh ticks tl1 n
      = Session.run Session.fresh ticks tl2 n).
Proof.
  split.
  - now apply run_clock_free.
  - intros H. now apply run_extensional.
Qed.

End SessionClock.

(** C1 (witness): the recorded session, run twice under the live clock. *)
Lemma session_deterministic_up_to_clock_witness :
  (forall k, live_clock k = live_clock k)
  /\ Session.run (platform := square_platform)
       Session.fresh recorded_ticks live_clock O
     = Session.run (platform := square_platform)
         Session.fresh recorded_ticks live_clock O.
Proof.
  split; [reflexivity|].
  apply (session_deterministic_up_to_clock (platform := square_platform)
           recorded_ticks live_clock live_clock O).
  reflexivity.
Defined.

(** C1 (counterexample).  The recorded session replayed to a fresh set of
    instances: the third tick reports a kick under the live clock and none
    under the replay clock. *)
Lemma session_depends_on_clock :
  map (fun o => BeatResult.kick (Session.beatResult o))
      (fst (Session.run (platform := square_platform)
              Session.fresh recorded_ticks live_clock O))
  = [false; true; true]
  /\ map (fun o => BeatResult.kick (Session.beatResult o))
         (fst (Session.run (platform := square_platform)
                 Session.fresh recorded_ticks replay_clock O))
     = [false; true; false]
  /\ fst (Session.run (platform := square_platform)
            Session.fresh recorded_ticks live_clock O)
     <> fst (Session.run (platform := square_platform)
               Session.fresh recorded_ticks replay_clock O).
Proof.
  assert (Hlive :
    map (fun o => BeatResult.kick (Session.beatResult o))
      (fst (Session.run (platform := square_platform)
              Session.fresh recorded_ticks live_clock O))
    = [false; true; true]) by (vm_compute; reflexivity).
  assert (Hreplay :
    map (fun o => BeatResult.kick (Session.beatResult o))
      (fst (Session.run (platform := square_platform)
              Session.fresh recorded_ticks replay_clock O))
    = [false; true; false]) by (vm_compute; reflexivity).
  split; [exact Hlive|split; [exact Hreplay|]].
  intros Heq. rewrite Heq in Hlive. rewrite Hlive in Hreplay.
  discriminate Hreplay.
Qed.

(** ** AudioVisualizer.processAudioData *)

Section Pipeline.

Context {platform : Platform}.
Import AudioVisualizer.

(** C6.  When the mean of the converted frequency magnitudes is below
    0.001, [processAudioData] replaces the feature vector by the all-zero
    one (every number 0, every flag false), reads no clock, and leaves the
    analyzer, the beat detector, the tempo tracker, the rhythm analyzer, the
    visual effects and the three histories as they were. *)
Theorem silent_tick_resets_features_only (self : t)
    (frequencyData timeData : list byte) (tl : Timeline) (n : nat) :
  let floatFreqData := toFloatFreqData frequencyData in
  (JS.sum floatFreqData / JS.of_nat (length floatFreqData) <? 0.001) = true ->
  let '(self', n') := processAudioData self frequencyData timeData tl n in
  audioFeatures self' = zeroFeatures
  /\ beatDetector self' = beatDetector self
  /\ tempoTracker self' = tempoTracker self
  /\ rhythmAnalyzer self' = rhythmAnalyzer self
  /\ audioAnalyzer self' = audioAnalyzer self
  /\ visualEffects self' = visualEffects self
  /\ energyHistory self' = energyHistory self
  /\ beatHistory self' = beatHistory self
  /\ onsetHistory self' = onsetHistory self
  /\ n' = n.
Proof.
  cbv zeta. intros Hsilent. unfold processAudioData.
  rewrite Hsilent. cbn. repeat split.
Qed.

End Pipeline.

(** C6 (witness): two silent bins (frequency bytes 0, time bytes 128) fed
    to a visualizer whose detector has already processed one tick. *)
Lemma silent_tick_resets_features_only_witness :
  let busy :=
    fst (AudioVisualizer.processAudioData (platform := square_platform)
           AudioVisualizer.create [xff; x80] [x90; x70] live_clock O) in
  AdvancedBeatDetector.energyBuffer (AudioVisualizer.beatDetector busy)
  = [0.79119045077361605]
  /\ let '(self', n') :=
       AudioVisualizer.processAudioData (platform := square_platform)
         busy [x00; x00] [x80; x80] live_clock 4%nat in
     AudioVisualizer.audioFeatures self' = AudioVisualizer.zeroFeatures
     /\ AudioVisualizer.beatDetector self' = AudioVisualizer.beatDetector busy
     /\ n' = 4%nat.
Proof.
  cbv zeta. split; [vm_compute; reflexivity|].
  pose proof
    (silent_tick_resets_features_only (platform := square_platform)
       (fst (AudioVisualizer.processAudioData (platform := square_platform)
               AudioVisualizer.create [xff; x80] [x90; x70] live_clock O))
       [x00; x00] [x80; x80] live_clock 4%nat) as H.
  cbv zeta in H. specialize (H ltac:(vm_compute; reflexivity)).
  destruct (AudioVisualizer.processAudioData _ [x00; x00] _ _ _) as [self' n'].
  destruct H as (Hf & Hb & _ & _ & _ & _ & _ & _ & _ & Hn).
  repeat split; assumption.
Defined.

(** ** AdvancedVisualEffects *)

Section Pulses.

Import AdvancedVisualEffects.

Lemma fade_shift (p factor : float) (n : nat) :
  fade (p * factor) factor n = fade p factor n * factor.
Proof.
  induction n as [|n IH]; cbn [fade].
  - reflexivity.
  - now rewrite IH.
Qed.

Lemma fade_fixed (p factor : float) (n : nat) :
  p * factor = p -> fade p factor n = p.
Proof.
  intros Hfix. induction n as [|n IH]; cbn [fade].
  - reflexivity.
  - now rewrite IH.
Qed.

Lemma settles_bounds (factor : float) (fuel : nat) : forall p n,
  settles factor p fuel = true ->
  (0 <=? fade p factor n) = true /\ (fade p factor n <=? 1) = true.
Proof.
  induction fuel as [|fuel IH]; intros p n; cbn [settles];
    intros H; apply andb_prop in H; destruct H as [H Hrest];
    apply andb_prop in H; destruct H as [Hlo Hhi].
  - apply FloatAxioms.Leibniz.eqb_spec in Hrest.
    rewrite (fade_fixed p factor n Hrest). now split.
  - destruct n as [|n].
    + cbn [fade]. now split.
    + cbn [fade]. rewrite <- fade_shift. now apply IH.
Qed.

Lemma decay_bounds (factor : float) (n : nat) :
  In factor [0.85; 0.8; 0.7; 0.6] ->
  (0 <=? decay factor n) = true /\ (decay factor n <=? 1) = true.
Proof.
  intros Hin. unfold decay.
  apply (settles_bounds factor 5000).
  cbn [In] in Hin.
  destruct Hin as [<-|[<-|[<-|[<-|[]]]]]; vm_compute; reflexivity.
Qed.

Lemma kickPulse_quiet (quiet : list AdvancedAudioFeatures) : forall self,
  Forall (fun f => kick f = false) quiet ->
  kickPulse (Trace.update_effects self quiet)
  = fade (kickPulse self) 0.8 (length quiet).
Proof.
  induction quiet as [|f quiet IH]; intros self Hq.
  - reflexivity.
  - inversion Hq as [|? ? Hf Hrest]; subst.
    cbn [Trace.update_effects fold_left length fade].
    change (fold_left update quiet (update self f))
      with (Trace.update_effects (update self f) quiet).
    rewrite (IH _ Hrest). cbn [update kickPulse]. rewrite Hf.
    apply fade_shift.
Qed.

Lemma snarePulse_quiet (quiet : list AdvancedAudioFeatures) : forall self,
  Forall (fun f => snare f = false) quiet ->
  snarePulse (Trace.update_effects self quiet)
  = fade (snarePulse self) 0.7 (length quiet).
Proof.
  induction quiet as [|f quiet IH]; intros self Hq.
  - reflexivity.
  - inversion Hq as [|? ? Hf Hrest]; subst.
    cbn [Trace.update_effects fold_left length fade].
    change (fold_left update quiet (update self f))
      with (Trace.update_effects (update self f) quiet).
    rewrite (IH _ Hrest). cbn [update snarePulse]. rewrite Hf.
    apply fade_shift.
Qed.

Lemma hihatPulse_quiet (quiet : list AdvancedAudioFeatures) : forall self,
  Forall (fun f => hihat f = false) quiet ->
  hihatPulse (Trace.update_effects self quiet)
  = fade (hihatPulse self) 0.6 (length quiet).
Proof.
  induction quiet as [|f quiet IH]; intros self Hq.
  - reflexivity.
  - inversion Hq as [|? ? Hf Hrest]; subst.
    cbn [Trace.update_effects fold_left length fade].
    change (fold_left update quiet (update self f))
      with (Trace.update_effects (update self f) quiet).
    rewrite (IH _ Hrest). cbn [update hihatPulse]. rewrite Hf.
    apply fade_shift.
Qed.

Lemma flashIntensity_quiet (quiet : list AdvancedAudioFeatures) : forall self,
  Forall (fun f => beat f = false) quiet ->
  flashIntensity (Trace.update_effects self quiet)
  = fade (flashIntensity self) 0.85 (length quiet).
Proof.
  induction quiet as [|f quiet IH]; intros self Hq.
  - reflexivity.
  - inversion Hq as [|? ? Hf Hrest]; subst.
    cbn [Trace.update_effects fold_left length fade].
    change (fold_left update quiet (update self f))
      with (Trace.update_effects (update self f) quiet).
    rewrite (IH _ Hrest). cbn [update flashIntensity]. rewrite Hf.
    apply fade_shift.
Qed.

(** C9.  After an [update] whose event sets a pulse to 1.0, followed by N
    updates without that event, the pulse equals [factor^N] (N successive
    multiplications by the factor: 0.8 for the kick, 0.7 for the snare, 0.6
    for the hi-hat, 0.85 for the flash, which a beat sets to 1.0 when
    [min(1, energy * beatConfidence)] is 1), and it is not below 0. *)
Theorem pulse_decay (self : t) (event : AdvancedAudioFeatures)
    (quiet : list AdvancedAudioFeatures) :
  let after := Trace.update_effects (update self event) quiet in
  let N := length quiet in
  (kick event = true ->
   Forall (fun f => kick f = false) quiet ->
   kickPulse after = decay 0.8 N /\ (0 <=? kickPulse after) = true)
  /\ (snare event = true ->
      Forall (fun f => snare f = false) quiet ->
      snarePulse after = decay 0.7 N /\ (0 <=? snarePulse after) = true)
  /\ (hihat event = true ->
      Forall (fun f => hihat f = false) quiet ->
      hihatPulse after = decay 0.6 N /\ (0 <=? hihatPulse after) = true)
  /\ (beat event = true ->
      JS.Math_min 1 (energy event * beatConfidence event) = 1 ->
      Forall (fun f => beat f = false) quiet ->
      flashIntensity after = decay 0.85 N
      /\ (0 <=? flashIntensity after) = true).
Proof.
  cbv zeta. split; [|split; [|split]].
  - intros Hev Hq. rewrite (kickPulse_quiet quiet _ Hq).
    cbn [update kickPulse]. rewrite Hev. fold (decay 0.8 (length quiet)).
    split; [reflexivity|]. apply decay_bounds. cbn [In]. tauto.
  - intros Hev Hq. rewrite (snarePulse_quiet quiet _ Hq).
    cbn [update snarePulse]. rewrite Hev. fold (decay 0.7 (length quiet)).
    split; [reflexivity|]. apply decay_bounds. cbn [In]. tauto.
  - intros Hev Hq. rewrite (hihatPulse_quiet quiet _ Hq).
    cbn [update hihatPulse]. rewrite Hev. fold (decay 0.6 (length quiet)).
    split; [reflexivity|]. apply decay_bounds. cbn [In]. tauto.
  - intros Hev Hone Hq. rewrite (flashIntensity_quiet quiet _ Hq).
    cbn [update flashIntensity]. rewrite Hev, Hone.
    fold (decay 0.85 (length quiet)).
    split; [reflexivity|]. apply decay_bounds. cbn [In]. tauto.
Qed.

End Pulses.

(** C9 (witness): all four events, then three ticks without any. *)
Lemma pulse_decay_witness :
  let after :=
    Trace.update_effects
      (AdvancedVisualEffects.update AdvancedVisualEffects.create all_events)
      [no_event; no_event; no_event] in
  AdvancedVisualEffects.kickPulse after = decay 0.8 3
  /\ AdvancedVisualEffects.snarePulse after = decay 0.7 3
  /\ AdvancedVisualEffects.hihatPulse after = decay 0.6 3
  /\ AdvancedVisualEffects.flashIntensity after = decay 0.85 3.
Proof.
  cbv zeta.
  pose proof (pulse_decay AdvancedVisualEffects.create all_events
                [no_event; no_event; no_event]) as H.
  cbv zeta in H. destruct H as (Hk & Hs & Hh & Hf).
  assert (Hquiet : forall flag : AdvancedAudioFeatures -> bool,
             flag no_event = false ->
             Forall (fun f => flag f = false) [no_event; no_event; no_event])
    by (intros flag Hflag; repeat constructor; exact Hflag).
  split; [|split; [|split]].
  - exact (proj1 (Hk eq_refl (Hquiet kick eq_refl))).
  - exact (proj1 (Hs eq_refl (Hquiet snare eq_refl))).
  - exact (proj1 (Hh eq_refl (Hquiet hihat eq_refl))).
  - exact (proj1 (Hf eq_refl eq_refl (Hquiet beat eq_refl))).
Defined.

(** ** Rounding of binary64 operations

    [binary_round_aux], the rounding the specification of every binary64
    operation ends with, characterised on integers: a right shift by the
    bits above 53, a step to the nearest even, and packing. *)

Section Binary64.

Local Open Scope Z_scope.

Lemma digits2_size (p : positive) : digits2_pos p = Pos.size p.
Proof. induction p; cbn; congruence. Qed.

Lemma Zdigits2_log2 (p : positive) : Zdigits2 (Zpos p) = Z.log2 (Zpos p) + 1.
Proof.
  cbn [Zdigits2]. rewrite digits2_size.
  destruct p; cbn; try reflexivity; rewrite Pos.add_1_r; lia.
Qed.

Lemma digits_bounds (p : positive) :
  2 ^ (Zdigits2 (Zpos p) - 1) <= Zpos p < 2 ^ Zdigits2 (Zpos p).
Proof.
  rewrite Zdigits2_log2.
  replace (Z.log2 (Z.pos p) + 1 - 1) with (Z.log2 (Z.pos p)) by lia.
  apply Z.log2_spec. lia.
Qed.

Lemma digits_unique (m d : Z) : 0 < d -> 2 ^ (d - 1) <= m < 2 ^ d -> Zdigits2 m = d.
Proof.
  intros Hd H. destruct m as [|p|p].
  - assert (0 < 2 ^ (d - 1)) by (apply Z.pow_pos_nonneg; lia). lia.
  - rewrite Zdigits2_log2.
    rewrite (Z.log2_unique (Zpos p) (d - 1)); [lia|lia|].
    replace (Z.succ (d - 1)) with d by lia. exact H.
  - assert (0 < 2 ^ (d - 1)) by (apply Z.pow_pos_nonneg; lia). lia.
Qed.

(* valid binary64 floats *)
Lemma bounded_inv (m : positive) (e : Z) :
  bounded prec emax m e = true ->
  -1074 <= e <= 971 /\ Zdigits2 (Zpos m) <= 53 /\ (-1074 < e -> Zdigits2 (Zpos m) = 53).
Proof.
  unfold bounded, canonical_mantissa, fexp, SpecFloat.emin, prec, emax.
  intros H. apply andb_prop in H. destruct H as [H1 H2].
  apply Z.eqb_eq in H1. apply Z.leb_le in H2.
  cbn [Zdigits2]. lia.
Qed.

Lemma iter_pos_nat {A} (f : A -> A) (p : positive) : forall x,
  iter_pos f p x = Nat.iter (Pos.to_nat p) f x.
Proof.
  induction p as [p IH|p IH|]; intros x; cbn [iter_pos].
  - rewrite !IH, Pos2Nat.inj_xI, <- Nat.iter_add, <- Nat.iter_succ_r.
    f_equal. lia.
  - rewrite !IH, Pos2Nat.inj_xO, <- Nat.iter_add. f_equal. lia.
  - reflexivity.
Qed.

Lemma shr_nat (mrs : shr_record) (e n : Z) :
  shr mrs e n = (Nat.iter (Z.to_nat n) shr_1 mrs, e + Z.max n 0).
Proof.
  destruct n as [|p|p]; cbn [shr Z.to_nat].
  - cbn. now rewrite Z.add_0_r.
  - rewrite iter_pos_nat. reflexivity.
  - cbn. now rewrite Z.add_0_r.
Qed.

Lemma shr_1_m (mrs : shr_record) :
  0 <= shr_m mrs -> shr_m (shr_1 mrs) = shr_m mrs / 2.
Proof.
  destruct mrs as [m r s]. cbn [shr_m]. intros Hm.
  rewrite <- Z.div2_div.
  destruct m as [|[p|p|]|p]; cbn; try reflexivity; lia.
Qed.

Lemma shr_1_exact (mrs : shr_record) :
  exact_record mrs -> 0 <= shr_m mrs -> shr_m mrs mod 2 = 0 ->
  exact_record (shr_1 mrs).
Proof.
  destruct mrs as [m r s]. unfold exact_record. cbn [shr_m shr_r shr_s].
  intros [-> ->] Hm Hev.
  destruct m as [|[p|p|]|p]; cbn; try (split; reflexivity); try lia.
  - exfalso. rewrite Pos2Z.inj_xI in Hev.
    rewrite Z.add_comm, Z.mul_comm, Z.mod_add in Hev by lia. discriminate.
  - discriminate.
Qed.

Lemma iter_shr_m (j : nat) : forall mrs,
  0 <= shr_m mrs ->
  shr_m (Nat.iter j shr_1 mrs) = shr_m mrs / 2 ^ Z.of_nat j.
Proof.
  induction j as [|j IH]; intros mrs Hm.
  - cbn. now rewrite Z.div_1_r.
  - rewrite Nat.iter_succ_r, IH.
    + rewrite shr_1_m by assumption.
      rewrite Z.div_div by lia.
      rewrite Nat2Z.inj_succ, Z.pow_succ_r by lia. reflexivity.
    + rewrite shr_1_m by assumption. apply Z.div_pos; lia.
Qed.

Lemma iter_shr_exact (j : nat) : forall mrs,
  exact_record mrs -> 0 <= shr_m mrs ->
  shr_m mrs mod 2 ^ Z.of_nat j = 0 ->
  exact_record (Nat.iter j shr_1 mrs).
Proof.
  induction j as [|j IH]; intros mrs Hex Hm Hmod.
  - exact Hex.
  - rewrite Nat2Z.inj_succ, Z.pow_succ_r in Hmod by lia.
    assert (H2 : 0 < 2 ^ Z.of_nat j) by (apply Z.pow_pos_nonneg; lia).
    apply Z.mod_divide in Hmod; [|lia].
    destruct Hmod as [c Hc].
    rewrite Nat.iter_succ_r. apply IH.
    + apply shr_1_exact; try assumption.
      rewrite Hc. replace (c * (2 * 2 ^ Z.of_nat j)) with (c * 2 ^ Z.of_nat j * 2) by ring.
      apply Z.mod_mul. lia.
    + rewrite shr_1_m by assumption. apply Z.div_pos; lia.
    + rewrite shr_1_m by assumption. rewrite Hc.
      replace (c * (2 * 2 ^ Z.of_nat j)) with (c * 2 ^ Z.of_nat j * 2) by ring.
      rewrite Z.div_mul by lia. apply Z.mod_mul. lia.
Qed.

Lemma rne_bounds (m : Z) (l : location) :
  m <= round_nearest_even m l <= m + 1.
Proof.
  destruct l as [|[ | | ]]; cbn [round_nearest_even];
    try destruct (Z.even m); lia.
Qed.

Lemma loc_of_exact (mrs : shr_record) :
  exact_record mrs -> loc_of_shr_record mrs = loc_Exact.
Proof. destruct mrs as [m r s]. intros [Hr Hs]. cbn in *. now subst. Qed.

Lemma loc_record_roundtrip (m : Z) (l : location) :
  loc_of_shr_record (shr_record_of_loc m l) = l /\ shr_m (shr_record_of_loc m l) = m.
Proof. destruct l as [|[ | | ]]; split; reflexivity. Qed.

(* the second shr_fexp and the final match *)
Lemma finish_pack (s : bool) (m e : Z) :
  0 <= m <= 2 ^ 53 -> -1074 <= e ->
  (let '(mrs, e') := shr_fexp prec emax m e loc_Exact in
   match shr_m mrs with
   | Z0 => S754_zero s
   | Zpos p => if e' <=? emax - prec then S754_finite s p e' else S754_infinity s
   | Zneg _ => S754_nan
   end) = pack s m e.
Proof.
  intros Hm He. unfold pack.
  destruct (Z.eqb_spec m 0) as [->|Hm0].
  - unfold shr_fexp. cbn [Zdigits2 shr_record_of_loc].
    rewrite shr_nat.
    replace (Z.to_nat _) with O
      by (unfold fexp, SpecFloat.emin, prec, emax; lia).
    reflexivity.
  - destruct (Z.eqb_spec m (2 ^ 53)) as [->|Hm53].
    + unfold shr_fexp. rewrite shr_nat.
      change (Zdigits2 (2 ^ 53)) with 54.
      replace (fexp prec emax (54 + e) - e) with 1
        by (unfold fexp, SpecFloat.emin, prec, emax; lia).
      cbn [Z.to_nat Pos.to_nat Pos.iter_op Nat.iter nat_rect Z.max].
      cbn [shr_record_of_loc]. reflexivity.
    + assert (Hlt : 0 < m < 2 ^ 53) by lia.
      assert (Hd : Zdigits2 m <= 53).
      { destruct m as [|p|p]; try lia.
        pose proof (digits_bounds p) as Hb.
        destruct (Z_le_gt_dec (Zdigits2 (Zpos p)) 53) as [|Hgt]; [assumption|].
        exfalso.
        assert (2 ^ 53 <= 2 ^ (Zdigits2 (Z.pos p) - 1))
          by (apply Z.pow_le_mono_r; lia).
        lia. }
      unfold shr_fexp. rewrite shr_nat.
      replace (Z.to_nat _) with O
        by (unfold fexp, SpecFloat.emin, prec, emax; lia).
      replace (Z.max _ 0) with 0
        by (unfold fexp, SpecFloat.emin, prec, emax; lia).
      cbn [Nat.iter nat_rect shr_record_of_loc shr_m].
      rewrite Z.add_0_r.
      destruct m as [|p|p]; try lia.
      cbn [Z.to_pos]. reflexivity.
Qed.

Lemma shifted_below_2p53 (m k : Z) :
  0 < m -> 0 <= k -> Zdigits2 m - 53 <= k -> m / 2 ^ k < 2 ^ 53.
Proof.
  intros Hm Hk Hd.
  destruct m as [|p|p]; try lia.
  pose proof (digits_bounds p) as [_ Hub].
  set (d := Zdigits2 (Zpos p)) in *.
  assert (H2k : 0 < 2 ^ k) by (apply Z.pow_pos_nonneg; lia).
  apply Z.div_lt_upper_bound; [assumption|].
  rewrite <- Z.pow_add_r by lia.
  apply Z.lt_le_trans with (2 ^ d); [assumption|].
  apply Z.pow_le_mono_r; lia.
Qed.

Lemma round_aux_spec (s : bool) (m e : Z) (l : location) :
  0 < m ->
  let k := Z.max (fexp prec emax (Zdigits2 m + e) - e) 0 in
  exists m_r,
    m / 2 ^ k <= m_r <= m / 2 ^ k + 1
    /\ m_r <= 2 ^ 53
    /\ (l = loc_Exact -> m mod 2 ^ k = 0 -> m_r = m / 2 ^ k)
    /\ binary_round_aux prec emax s m e l = pack s m_r (e + k).
Proof.
  intros Hm k.
  set (n := fexp prec emax (Zdigits2 m + e) - e) in *.
  set (mrs' := Nat.iter (Z.to_nat n) shr_1 (shr_record_of_loc m l)).
  assert (Hk : Z.of_nat (Z.to_nat n) = k) by (unfold k; lia).
  assert (Hm' : shr_m mrs' = m / 2 ^ k).
  { unfold mrs'. rewrite iter_shr_m, Hk.
    - now rewrite (proj2 (loc_record_roundtrip m l)).
    - rewrite (proj2 (loc_record_roundtrip m l)). lia. }
  exists (round_nearest_even (shr_m mrs') (loc_of_shr_record mrs')).
  assert (Hk0 : 0 <= k) by (unfold k; lia).
  assert (H2k : 0 < 2 ^ k) by (apply Z.pow_pos_nonneg; lia).
  assert (Hq : 0 <= m / 2 ^ k) by (apply Z.div_pos; lia).
  assert (Hlt53 : m / 2 ^ k < 2 ^ 53).
  { apply shifted_below_2p53; try lia.
    unfold k, n, fexp, SpecFloat.emin, prec, emax. lia. }
  pose proof (rne_bounds (shr_m mrs') (loc_of_shr_record mrs')) as Hr.
  set (m_r := round_nearest_even (shr_m mrs') (loc_of_shr_record mrs')) in *.
  rewrite Hm' in Hr.
  split; [|split; [|split]].
  - exact Hr.
  - lia.
  - intros -> Hmod.
    unfold m_r. rewrite loc_of_exact; [cbn [round_nearest_even]; exact Hm'|].
    unfold mrs'. apply iter_shr_exact.
    + split; reflexivity.
    + cbn [shr_record_of_loc shr_m]. lia.
    + cbn [shr_record_of_loc shr_m]. now rewrite Hk.
  - unfold binary_round_aux.
    unfold shr_fexp at 1. fold n. rewrite shr_nat. fold mrs'.
    replace (Z.max n 0) with k by (unfold k; lia).
    apply finish_pack.
    + lia.
    + unfold k, n, fexp, SpecFloat.emin, prec, emax. lia.
Qed.

Lemma pow2_pos (n : Z) : 0 <= n -> 0 < 2 ^ n.
Proof. intros. apply Z.pow_pos_nonneg; lia. Qed.

Lemma pow2_split (a b : Z) : 0 <= a -> 0 <= b -> 2 ^ (a + b) = 2 ^ a * 2 ^ b.
Proof. intros. apply Z.pow_add_r; lia. Qed.

Lemma mantissa_bounds (m : positive) (e : Z) :
  bounded prec emax m e = true ->
  Zpos m < 2 ^ 53 /\ (-1074 < e -> 2 ^ 52 <= Zpos m).
Proof.
  intros Hb. apply bounded_inv in Hb. destruct Hb as (He & Hd & Hn).
  pose proof (digits_bounds m) as [Hlo Hhi].
  split.
  - apply Z.lt_le_trans with (2 ^ Zdigits2 (Zpos m)); [assumption|].
    apply Z.pow_le_mono_r; lia.
  - intros H. rewrite (Hn H) in Hlo. exact Hlo.
Qed.

Lemma scaled_lt_exponent (m1 m2 : positive) (e1 e2 : Z) :
  bounded prec emax m1 e1 = true -> bounded prec emax m2 e2 = true ->
  e1 < e2 -> scaled m1 e1 < scaled m2 e2.
Proof.
  intros H1 H2 Hlt.
  pose proof (bounded_inv m1 e1 H1) as (He1 & _ & _).
  pose proof (bounded_inv m2 e2 H2) as (He2 & _ & _).
  pose proof (mantissa_bounds m1 e1 H1) as [Hm1 _].
  pose proof (mantissa_bounds m2 e2 H2) as [_ Hm2].
  assert (Hn : -1074 < e2) by (clear - He1 Hlt; lia).
  specialize (Hm2 Hn).
  unfold scaled.
  replace (e2 + 1074) with ((e1 + 1074) + (e2 - e1)) by lia.
  rewrite (pow2_split (e1 + 1074) (e2 - e1)) by lia.
  assert (Ha : 0 < 2 ^ (e1 + 1074)) by (apply pow2_pos; lia).
  assert (Hb : 2 ^ 1 <= 2 ^ (e2 - e1)) by (apply Z.pow_le_mono_r; lia).
  change (2 ^ 1) with 2 in Hb.
  change (2 ^ 53) with (2 ^ 52 * 2) in Hm1.
  set (A := 2 ^ (e1 + 1074)) in *. set (C := 2 ^ (e2 - e1)) in *.
  set (K := 2 ^ 52) in *. assert (HK : 0 < K) by reflexivity.
  clearbody A C K.
  apply Z.lt_le_trans with (K * 2 * A).
  - apply Z.mul_lt_mono_pos_r; assumption.
  - apply Z.le_trans with (K * (A * C)).
    + replace (K * 2 * A) with (K * (A * 2)) by ring.
      apply Z.mul_le_mono_nonneg_l; [lia|].
      apply Z.mul_le_mono_nonneg_l; lia.
    + apply Z.mul_le_mono_nonneg_r; [|assumption].
      apply Z.mul_nonneg_nonneg; lia.
Qed.

Lemma compare_scaled (m1 m2 : positive) (e1 e2 : Z) :
  bounded prec emax m1 e1 = true -> bounded prec emax m2 e2 = true ->
  SFcompare (S754_finite false m1 e1) (S754_finite false m2 e2)
  = Some (scaled m1 e1 ?= scaled m2 e2).
Proof.
  intros H1 H2. cbn [SFcompare]. f_equal.
  destruct (Z.compare_spec e1 e2) as [Heq|Hlt|Hgt].
  - subst e2. unfold scaled.
    pose proof (bounded_inv m1 e1 H1) as (He1 & _ & _).
    change (Pos.compare_cont Eq m1 m2) with (Zpos m1 ?= Zpos m2).
    apply Zmult_compare_compat_r. apply Z.lt_gt, pow2_pos. lia.
  - symmetry. apply Z.compare_lt_iff. now apply scaled_lt_exponent.
  - symmetry. apply Z.compare_gt_iff. now apply scaled_lt_exponent.
Qed.

Lemma shl_align_value (m : positive) (e e' : Z) :
  e' <= e -> Zpos (fst (shl_align m e e')) = Zpos m * 2 ^ (e - e').
Proof.
  intros Hle. unfold shl_align.
  destruct (e' - e) as [|p|p] eqn:Hd; try lia.
  - replace (e - e') with 0 by lia. cbn [fst]. lia.
  - cbn [fst]. replace (e - e') with (Zpos p) by lia.
    rewrite <- (Z.mul_comm (2 ^ Zpos p)).
    change (Pos.iter xO m p) with (shift_pos p m).
    rewrite shift_pos_correct. rewrite Zpower_pos_nat, Zpower_nat_Z.
    rewrite positive_nat_Z. reflexivity.
Qed.

Lemma shl_align_same (m : positive) (e e' : Z) :
  e <= e' -> shl_align m e e' = (m, e).
Proof.
  intros Hle. unfold shl_align.
  destruct (e' - e) as [|p|p] eqn:Hd; try reflexivity; lia.
Qed.

Lemma sf_unsigned_weaken f : sf_unsigned f -> sf_unsigned_or_nan f.
Proof. destruct f as [[]|[]| |[] m e]; cbn; tauto. Qed.

Lemma pack_unsigned (m e : Z) : sf_unsigned (pack false m e).
Proof.
  unfold pack.
  repeat match goal with |- context [if ?b then _ else _] => destruct b end;
    exact I.
Qed.

Lemma round_aux_unsigned (m e : Z) (l : location) :
  0 < m -> sf_unsigned (binary_round_aux prec emax false m e l).
Proof.
  intros Hm. destruct (round_aux_spec false m e l Hm) as (m_r & _ & _ & _ & ->).
  apply pack_unsigned.
Qed.

Lemma round_aux_unsigned_or_nan (m e : Z) (l : location) :
  sf_unsigned_or_nan (binary_round_aux prec emax false m e l).
Proof.
  unfold binary_round_aux.
  destruct (shr_fexp prec emax m e l) as [mrs' e'].
  destruct (shr_fexp prec emax _ e' loc_Exact) as [mrs'' e''].
  destruct (shr_m mrs''); [reflexivity| |exact I].
  destruct (e'' <=? emax - prec); reflexivity.
Qed.

Lemma binary_round_unsigned (m : positive) (e : Z) :
  sf_unsigned (binary_round prec emax false m e).
Proof.
  unfold binary_round. destruct (shl_align _ _ _) as [mz ez].
  apply round_aux_unsigned. lia.
Qed.

(** [pack] on a mantissa between 1 and 2^53: infinite or a finite number of
    the same value. *)
Lemma pack_finite (m e : Z) :
  0 < m <= 2 ^ 53 -> -1074 <= e -> e + 1 <= 971 ->
  exists mf ef, pack false m e = S754_finite false mf ef
                /\ scaled mf ef = m * 2 ^ (e + 1074).
Proof.
  intros Hm He Hhi. unfold pack.
  destruct (Z.eqb_spec m 0) as [?|_]; [lia|].
  destruct (Z.eqb_spec m (2 ^ 53)) as [->|Hne].
  - destruct (Z.leb_spec (e + 1) 971); [|lia].
    eexists; eexists; split; [reflexivity|].
    unfold scaled. replace (e + 1 + 1074) with (1 + (e + 1074)) by lia.
    rewrite (pow2_split 1 (e + 1074)) by lia.
    change (Zpos (2 ^ 52)) with (2 ^ 52). change (2 ^ 53) with (2 ^ 52 * 2 ^ 1).
    ring.
  - destruct (Z.leb_spec e 971); [|lia].
    eexists; eexists; split; [reflexivity|].
    unfold scaled. rewrite Z2Pos.id by lia. reflexivity.
Qed.

Lemma digits_le_of_lt_pow (m n : Z) :
  0 < m -> 0 <= n -> m < 2 ^ n -> Zdigits2 m <= n.
Proof.
  intros Hm Hn Hlt. destruct m as [|p|p]; try lia.
  pose proof (digits_bounds p) as [Hlo _].
  destruct (Z_le_gt_dec (Zdigits2 (Zpos p)) n) as [|Hgt]; [assumption|].
  exfalso.
  assert (2 ^ n <= 2 ^ (Zdigits2 (Zpos p) - 1))
    by (apply Z.pow_le_mono_r; lia).
  lia.
Qed.

Lemma round_aux_between (m e : Z) (l : location) (L U : Z) :
  0 < L -> U < 2 ^ 53 -> -1074 <= e <= 0 ->
  L * 2 ^ (- e) <= m -> m <= U * 2 ^ (- e) ->
  (m = U * 2 ^ (- e) -> l = loc_Exact) ->
  exists mf ef,
    binary_round_aux prec emax false m e l = S754_finite false mf ef
    /\ L * 2 ^ 1074 <= scaled mf ef <= U * 2 ^ 1074.
Proof.
  intros HL HU He Hlo Hhi Hexact.
  assert (H2e : 0 < 2 ^ (- e)) by (apply pow2_pos; lia).
  assert (Hm : 0 < m) by nia.
  destruct (round_aux_spec false m e l Hm) as (m_r & Hr & Hr53 & Hex & ->).
  set (k := Z.max (fexp prec emax (Zdigits2 m + e) - e) 0) in *.
  assert (Hd : Zdigits2 m <= 53 - e).
  { apply digits_le_of_lt_pow; try lia.
    apply Z.le_lt_trans with (U * 2 ^ (- e)); [assumption|].
    replace (53 - e) with (53 + - e) by lia.
    rewrite pow2_split by lia.
    apply Z.mul_lt_mono_pos_r; assumption. }
  assert (Hk : 0 <= k /\ e + k <= 0 /\ -1074 <= e + k)
    by (unfold k, fexp, SpecFloat.emin, prec, emax; lia).
  destruct Hk as (Hk0 & Hek & Hek').
  set (g := - (e + k)).
  assert (Hsplit : 2 ^ (- e) = 2 ^ g * 2 ^ k).
  { rewrite <- pow2_split by (unfold g; lia). f_equal. unfold g. lia. }
  assert (H2k : 0 < 2 ^ k) by (apply pow2_pos; lia).
  assert (H2g : 0 < 2 ^ g) by (apply pow2_pos; unfold g; lia).
  rewrite Hsplit in Hlo, Hhi, Hexact.
  assert (Hqlo : L * 2 ^ g <= m / 2 ^ k).
  { apply Z.div_le_lower_bound; [assumption|].
    rewrite Z.mul_comm. now rewrite <- Z.mul_assoc. }
  assert (Hqhi : m / 2 ^ k <= U * 2 ^ g).
  { apply Z.div_le_upper_bound; [assumption|].
    rewrite Z.mul_comm. now rewrite <- Z.mul_assoc. }
  assert (Hrhi : m_r <= U * 2 ^ g).
  { destruct (Z.eq_dec (m / 2 ^ k) (U * 2 ^ g)) as [Heq|Hne]; [|lia].
    assert (Hm_eq : m = U * (2 ^ g * 2 ^ k)).
    { pose proof (Z.mul_div_le m (2 ^ k) H2k) as Hle.
      rewrite Heq in Hle. nia. }
    rewrite Hex.
    - exact Hqhi.
    - now apply Hexact.
    - rewrite Hm_eq. rewrite Z.mul_assoc. apply Z.mod_mul. lia. }
  destruct (pack_finite m_r (e + k)) as (mf & ef & Hpack & Hval);
    [nia | lia | lia |].
  exists mf, ef. split; [exact Hpack|].
  rewrite Hval.
  assert (HB : 2 ^ 1074 = 2 ^ g * 2 ^ (e + k + 1074)).
  { rewrite <- pow2_split by (unfold g; lia). f_equal. unfold g. lia. }
  rewrite HB.
  assert (H2r : 0 < 2 ^ (e + k + 1074)) by (apply pow2_pos; lia).
  rewrite !Z.mul_assoc.
  split; apply Z.mul_le_mono_nonneg_r; lia.
Qed.

Lemma scaled_pos (m : positive) (e : Z) : -1074 <= e -> 0 < scaled m e.
Proof.
  intros He. unfold scaled.
  apply Z.mul_pos_pos; [lia|]. apply pow2_pos. lia.
Qed.

(** A float above 2^53 units cannot have a positive exponent... *)
Lemma exponent_nonpos (m : positive) (e : Z) (U : Z) :
  bounded prec emax m e = true -> U < 2 ^ 53 ->
  scaled m e <= U * 2 ^ 1074 -> e <= 0.
Proof.
  intros Hb HU Hle.
  destruct (Z_le_gt_dec e 0) as [|Hgt]; [assumption|exfalso].
  pose proof (mantissa_bounds m e Hb) as [_ Hm].
  specialize (Hm ltac:(lia)).
  unfold scaled in Hle.
  replace (e + 1074) with (e + 1074) in Hle by lia.
  rewrite (Z.add_comm e 1074), (pow2_split 1074 e) in Hle by lia.
  assert (HB : 0 < 2 ^ 1074) by (apply pow2_pos; lia).
  assert (He : 2 ^ 1 <= 2 ^ e) by (apply Z.pow_le_mono_r; lia).
  change (2 ^ 1) with 2 in He.
  set (B := 2 ^ 1074) in *. set (E := 2 ^ e) in *.
  change (2 ^ 53) with (2 ^ 52 * 2) in HU.
  set (K := 2 ^ 52) in *. assert (HK : 0 < K) by reflexivity.
  clearbody B E K.
  assert (K * 2 * B <= Zpos m * (B * E)).
  { replace (K * 2 * B) with (K * (B * 2)) by ring.
    apply Z.le_trans with (K * (B * E)).
    - apply Z.mul_le_mono_nonneg_l; [lia|].
      apply Z.mul_le_mono_nonneg_l; lia.
    - apply Z.mul_le_mono_nonneg_r; [|lia].
      apply Z.mul_nonneg_nonneg; lia. }
  assert (U * B < K * 2 * B) by (apply Z.mul_lt_mono_pos_r; lia).
  lia.
Qed.

Lemma SFadd_between (ma mx : positive) (ea ex : Z) (L U : Z) :
  bounded prec emax ma ea = true -> bounded prec emax mx ex = true ->
  0 < L -> U < 2 ^ 53 ->
  L * 2 ^ 1074 <= scaled ma ea + scaled mx ex <= U * 2 ^ 1074 ->
  exists mf ef,
    SFadd prec emax (S754_finite false ma ea) (S754_finite false mx ex)
    = S754_finite false mf ef
    /\ L * 2 ^ 1074 <= scaled mf ef <= U * 2 ^ 1074.
Proof.
  intros Ha Hx HL HU [Hlo Hhi].
  pose proof (bounded_inv ma ea Ha) as (Hea & _ & _).
  pose proof (bounded_inv mx ex Hx) as (Hex & _ & _).
  pose proof (scaled_pos ma ea ltac:(lia)) as Hpa.
  pose proof (scaled_pos mx ex ltac:(lia)) as Hpx.
  assert (Hea0 : ea <= 0) by (apply (exponent_nonpos ma ea U); try assumption; lia).
  assert (Hex0 : ex <= 0) by (apply (exponent_nonpos mx ex U); try assumption; lia).
  unfold SFadd. cbv zeta. cbn [cond_Zopp].
  set (ez := Z.min ea ex).
  assert (Hez : -1074 <= ez <= 0) by (unfold ez; lia).
  pose proof (shl_align_value ma ea ez ltac:(unfold ez; lia)) as Hva.
  pose proof (shl_align_value mx ex ez ltac:(unfold ez; lia)) as Hvx.
  set (a' := fst (shl_align ma ea ez)) in *.
  set (x' := fst (shl_align mx ex ez)) in *.
  change (Zpos a' + Zpos x') with (Zpos (a' + x')).
  cbn [binary_normalize]. unfold binary_round.
  assert (Hsum : Zpos (a' + x') * 2 ^ (ez + 1074) = scaled ma ea + scaled mx ex).
  { rewrite Pos2Z.inj_add, Hva, Hvx. unfold scaled.
    rewrite Z.mul_add_distr_r, <- !Z.mul_assoc.
    rewrite <- !pow2_split by (unfold ez; lia).
    do 2 f_equal; f_equal; lia. }
  (* the aligned sum is long enough for no left shift *)
  assert (Hnoshift : ez <= fexp prec emax (Zpos (digits2_pos (a' + x')) + ez)).
  { unfold fexp, SpecFloat.emin, prec, emax.
    destruct (Z.eq_dec ez (-1074)) as [->|Hne]; [lia|].
    assert (H52 : 2 ^ 52 <= Zpos (a' + x')).
    { rewrite Pos2Z.inj_add, Hva, Hvx.
      assert (0 < 2 ^ (ea - ez)) by (apply pow2_pos; unfold ez; lia).
      assert (0 < 2 ^ (ex - ez)) by (apply pow2_pos; unfold ez; lia).
      destruct (Z.min_spec ea ex) as [[Hlt Hmin]|[Hle Hmin]]; fold ez in Hmin.
      - pose proof (mantissa_bounds ma ea Ha) as [_ Hm].
        specialize (Hm ltac:(lia)).
        replace (ea - ez) with 0 by lia. change (2 ^ 0) with 1. nia.
      - pose proof (mantissa_bounds mx ex Hx) as [_ Hm].
        specialize (Hm ltac:(lia)).
        replace (ex - ez) with 0 by lia. change (2 ^ 0) with 1. nia. }
    pose proof (digits_bounds (a' + x')) as [_ Hub].
    change (Zdigits2 (Zpos (a' + x'))) with (Zpos (digits2_pos (a' + x'))) in Hub.
    set (d := Zpos (digits2_pos (a' + x'))) in *.
    assert (52 < d).
    { apply (Z.pow_lt_mono_r_iff 2); lia. }
    lia. }
  rewrite (shl_align_same _ _ _ Hnoshift).
  assert (H2 : 0 < 2 ^ (ez + 1074)) by (apply pow2_pos; lia).
  assert (HB : 2 ^ 1074 = 2 ^ (- ez) * 2 ^ (ez + 1074)).
  { rewrite <- pow2_split by lia. f_equal. lia. }
  rewrite HB, Z.mul_assoc in Hlo, Hhi. rewrite <- Hsum in Hlo, Hhi.
  apply Z.mul_le_mono_pos_r in Hlo; [|assumption].
  apply Z.mul_le_mono_pos_r in Hhi; [|assumption].
  destruct (round_aux_between (Zpos (a' + x')) ez loc_Exact L U) as (mf & ef & Hr & Hb);
    try assumption; try reflexivity.
  exists mf, ef. split; [exact Hr|].
  rewrite HB, !Z.mul_assoc. rewrite HB, !Z.mul_assoc in Hb. exact Hb.
Qed.

Lemma new_location_exact (nb : Z) : new_location nb 0 = loc_Exact.
Proof.
  unfold new_location, new_location_even, new_location_odd.
  destruct (Z.even nb); reflexivity.
Qed.

(** The integer quotient behind [SFdiv] when the dividend is not below the
    divisor: it has 53 or 54 bits. *)
Lemma SFdiv_core_facts (m1 m2 : positive) (e1 e2 : Z) :
  bounded prec emax m1 e1 = true -> bounded prec emax m2 e2 = true ->
  scaled m2 e2 <= scaled m1 e1 ->
  exists q r e' loc,
    SFdiv_core_binary prec emax (Zpos m1) e1 (Zpos m2) e2 = (q, e', loc)
    /\ -53 <= e'
    /\ 0 <= e1 - e2 - e'
    /\ Zpos m1 * 2 ^ (e1 - e2 - e') = q * Zpos m2 + r
    /\ 0 <= r < Zpos m2
    /\ 2 ^ 52 <= q < 2 ^ 54
    /\ (r = 0 -> loc = loc_Exact).
Proof.
  intros H1 H2 Hle.
  pose proof (bounded_inv m1 e1 H1) as (He1 & Hd1 & _).
  pose proof (bounded_inv m2 e2 H2) as (He2 & Hd2 & _).
  pose proof (digits_bounds m1) as [Hlo1 Hhi1].
  pose proof (digits_bounds m2) as [Hlo2 Hhi2].
  set (d1 := Zdigits2 (Zpos m1)) in *. set (d2 := Zdigits2 (Zpos m2)) in *.
  assert (Hd1pos : 1 <= d1) by (unfold d1; cbn; lia).
  assert (Hd2pos : 1 <= d2) by (unfold d2; cbn; lia).
  (* magnitudes *)
  assert (Hdelta : 0 <= d1 + e1 - (d2 + e2)).
  { destruct (Z_le_gt_dec 0 (d1 + e1 - (d2 + e2))) as [|Hgt]; [assumption|exfalso].
    unfold scaled in Hle.
    assert (Ha : Zpos m1 * 2 ^ (e1 + 1074) < 2 ^ d1 * 2 ^ (e1 + 1074)).
    { apply Z.mul_lt_mono_pos_r; [apply pow2_pos; lia|assumption]. }
    assert (Hb : 2 ^ (d2 - 1) * 2 ^ (e2 + 1074) <= Zpos m2 * 2 ^ (e2 + 1074)).
    { apply Z.mul_le_mono_nonneg_r; [apply Z.lt_le_incl, pow2_pos; lia|assumption]. }
    rewrite <- pow2_split in Ha, Hb by lia.
    assert (2 ^ (d1 + (e1 + 1074)) <= 2 ^ (d2 - 1 + (e2 + 1074)))
      by (apply Z.pow_le_mono_r; lia).
    lia. }
  unfold SFdiv_core_binary. fold d1 d2.
  set (e' := Z.min (fexp prec emax (d1 + e1 - (d2 + e2))) (e1 - e2)).
  assert (He' : e' = d1 + e1 - (d2 + e2) - 53)
    by (unfold e', fexp, SpecFloat.emin, prec, emax; lia).
  set (s := e1 - e2 - e').
  assert (Hs : s = 53 - d1 + d2) by (unfold s; lia).
  assert (Hspos : 0 < s) by lia.
  destruct s as [|sp|sp] eqn:Hseq; try lia.
  rewrite Z.shiftl_mul_pow2 by lia.
  rewrite <- Hseq in *. clear Hseq sp.
  set (m' := Zpos m1 * 2 ^ s).
  pose proof (Z_div_mod m' (Zpos m2) ltac:(lia)) as Hdm.
  unfold Z.div, Z.modulo.
  pose proof (Z.div_mod m' (Zpos m2) ltac:(lia)) as Hdm'.
  unfold Z.div, Z.modulo in Hdm'.
  destruct (Z.div_eucl m' (Zpos m2)) as [q r].
  destruct Hdm as [Hqr Hr].
  exists q, r, e', (new_location (Zpos m2) r).
  assert (H2s : 0 < 2 ^ s) by (apply pow2_pos; lia).
  assert (Hm'lo : 2 ^ 52 * 2 ^ d2 <= m').
  { unfold m'. rewrite <- pow2_split by lia. replace (52 + d2) with ((d1 - 1) + s) by lia.
    rewrite pow2_split by lia. apply Z.mul_le_mono_nonneg_r; lia. }
  assert (Hm'hi : m' < 2 ^ 54 * 2 ^ (d2 - 1)).
  { unfold m'. rewrite <- pow2_split by lia. replace (54 + (d2 - 1)) with (d1 + s) by lia.
    rewrite pow2_split by lia. apply Z.mul_lt_mono_pos_r; lia. }
  assert (H2d2 : 0 < 2 ^ (d2 - 1)) by (apply pow2_pos; lia).
  repeat split; try lia.
  - fold s. fold m'. lia.
  - (* 2^52 <= q *)
    destruct (Z_le_gt_dec (2 ^ 52) q) as [|Hgt]; [assumption|exfalso].
    assert (q + 1 <= 2 ^ 52) by lia.
    assert ((q + 1) * Zpos m2 <= 2 ^ 52 * Zpos m2)
      by (apply Z.mul_le_mono_nonneg_r; lia).
    assert (2 ^ 52 * Zpos m2 < 2 ^ 52 * 2 ^ d2)
      by (apply Z.mul_lt_mono_pos_l; [reflexivity|lia]).
    lia.
  - (* q < 2^54 *)
    destruct (Z_lt_ge_dec q (2 ^ 54)) as [|Hge]; [assumption|exfalso].
    assert (2 ^ 54 * Zpos m2 <= q * Zpos m2)
      by (apply Z.mul_le_mono_nonneg_r; lia).
    assert (2 ^ 54 * 2 ^ (d2 - 1) <= 2 ^ 54 * Zpos m2)
      by (apply Z.mul_le_mono_nonneg_l; lia).
    lia.
  - intros ->. apply new_location_exact.
Qed.

(** Cross-multiplied comparison of the two operands, rescaled to the
    quotient's exponent. *)
Lemma rescale_le (m1 m2 : positive) (e1 e2 e' N : Z) :
  -1074 <= e1 -> -1074 <= e2 -> e' <= 0 -> 0 <= e1 - e2 - e' ->
  (N * scaled m2 e2 <= scaled m1 e1
   <-> N * 2 ^ (- e') * Zpos m2 <= Zpos m1 * 2 ^ (e1 - e2 - e')).
Proof.
  intros He1 He2 He' Hs. unfold scaled.
  assert (H2 : 0 < 2 ^ (e2 + 1074)) by (apply pow2_pos; lia).
  assert (H3 : 0 < 2 ^ (- e')) by (apply pow2_pos; lia).
  assert (Heq : 2 ^ (e1 + 1074) * 2 ^ (- e') = 2 ^ (e1 - e2 - e') * 2 ^ (e2 + 1074)).
  { rewrite <- !pow2_split by lia. f_equal. lia. }
  split; intros H.
  - apply (Z.mul_le_mono_pos_r _ _ (2 ^ (e2 + 1074))); [assumption|].
    replace (Zpos m1 * 2 ^ (e1 - e2 - e') * 2 ^ (e2 + 1074))
      with (Zpos m1 * 2 ^ (e1 + 1074) * 2 ^ (- e'))
      by (rewrite <- !Z.mul_assoc, Heq; reflexivity).
    replace (N * 2 ^ (- e') * Zpos m2 * 2 ^ (e2 + 1074))
      with (N * (Zpos m2 * 2 ^ (e2 + 1074)) * 2 ^ (- e')) by ring.
    apply Z.mul_le_mono_nonneg_r; lia.
  - apply (Z.mul_le_mono_pos_r _ _ (2 ^ (- e'))); [assumption|].
    replace (Zpos m1 * 2 ^ (e1 + 1074) * 2 ^ (- e'))
      with (Zpos m1 * 2 ^ (e1 - e2 - e') * 2 ^ (e2 + 1074))
      by (rewrite <- !Z.mul_assoc, Heq; reflexivity).
    replace (N * (Zpos m2 * 2 ^ (e2 + 1074)) * 2 ^ (- e'))
      with (N * 2 ^ (- e') * Zpos m2 * 2 ^ (e2 + 1074)) by ring.
    apply Z.mul_le_mono_nonneg_r; lia.
Qed.

Lemma SFdiv_between (m1 m2 : positive) (e1 e2 : Z) (L U : Z) :
  bounded prec emax m1 e1 = true -> bounded prec emax m2 e2 = true ->
  0 < L -> U < 2 ^ 53 ->
  L * scaled m2 e2 <= scaled m1 e1 <= U * scaled m2 e2 ->
  exists mf ef,
    SFdiv prec emax (S754_finite false m1 e1) (S754_finite false m2 e2)
    = S754_finite false mf ef
    /\ L * 2 ^ 1074 <= scaled mf ef <= U * 2 ^ 1074.
Proof.
  intros H1 H2 HL HU [Hlo Hhi].
  pose proof (bounded_inv m1 e1 H1) as (He1 & _ & _).
  pose proof (bounded_inv m2 e2 H2) as (He2 & _ & _).
  pose proof (scaled_pos m2 e2 ltac:(lia)) as Hp2.
  assert (Hge : scaled m2 e2 <= scaled m1 e1) by nia.
  destruct (SFdiv_core_facts m1 m2 e1 e2 H1 H2 Hge)
    as (q & r & e' & loc & Hcore & He'lo & Hs & Hqr & Hr & Hq & Hloc).
  unfold SFdiv. rewrite Hcore. cbn [xorb].
  (* the quotient is below 2^53, so its exponent is not positive *)
  assert (He'0 : e' <= 0).
  { destruct (Z_le_gt_dec e' 0) as [|Hgt]; [assumption|exfalso].
    (* q * 2^e' * m2 <= m1 * 2^(e1-e2) <= U * m2 *)
    assert (Hs' : 0 <= e1 - e2) by lia.
    assert (Hx : Zpos m1 * 2 ^ (e1 - e2) <= U * Zpos m2).
    { unfold scaled in Hhi.
      replace (e1 + 1074) with ((e1 - e2) + (e2 + 1074)) in Hhi by lia.
      rewrite pow2_split in Hhi by lia.
      rewrite !Z.mul_assoc in Hhi.
      apply Z.mul_le_mono_pos_r in Hhi; [assumption|apply pow2_pos; lia]. }
    replace (e1 - e2) with ((e1 - e2 - e') + e') in Hx by lia.
    rewrite pow2_split, Z.mul_assoc, Hqr in Hx by lia.
    assert (2 ^ 1 <= 2 ^ e') by (apply Z.pow_le_mono_r; lia).
    change (2 ^ 1) with 2 in *.
    assert (q * Zpos m2 * 2 <= (q * Zpos m2 + r) * 2 ^ e').
    { apply Z.le_trans with ((q * Zpos m2 + r) * 2).
      - nia.
      - apply Z.mul_le_mono_nonneg_l; nia. }
    assert (2 ^ 52 * Zpos m2 * 2 <= q * Zpos m2 * 2).
    { apply Z.mul_le_mono_nonneg_r; [lia|].
      apply Z.mul_le_mono_nonneg_r; lia. }
    assert (U * Zpos m2 < 2 ^ 53 * Zpos m2)
      by (apply Z.mul_lt_mono_pos_r; lia).
    change (2 ^ 53) with (2 ^ 52 * 2) in *. lia. }
  apply (rescale_le m1 m2 e1 e2 e' L) in Hlo; try lia.
  assert (Hhi' : Zpos m1 * 2 ^ (e1 - e2 - e') <= U * 2 ^ (- e') * Zpos m2).
  { unfold scaled in Hhi.
    assert (Hp2' : 0 < 2 ^ (e2 + 1074)) by (apply pow2_pos; lia).
    assert (Hp3 : 0 < 2 ^ (- e')) by (apply pow2_pos; lia).
    assert (Heq : 2 ^ (e1 + 1074) * 2 ^ (- e')
                  = 2 ^ (e1 - e2 - e') * 2 ^ (e2 + 1074)).
    { rewrite <- !pow2_split by lia. f_equal. lia. }
    apply (Z.mul_le_mono_pos_r _ _ (2 ^ (e2 + 1074))); [assumption|].
    replace (Zpos m1 * 2 ^ (e1 - e2 - e') * 2 ^ (e2 + 1074))
      with (Zpos m1 * 2 ^ (e1 + 1074) * 2 ^ (- e'))
      by (rewrite <- !Z.mul_assoc, Heq; reflexivity).
    replace (U * 2 ^ (- e') * Zpos m2 * 2 ^ (e2 + 1074))
      with (U * (Zpos m2 * 2 ^ (e2 + 1074)) * 2 ^ (- e')) by ring.
    apply Z.mul_le_mono_nonneg_r; lia. }
  rewrite Hqr in Hlo, Hhi'.
  assert (H3 : 0 < 2 ^ (- e')) by (apply pow2_pos; lia).
  apply round_aux_between; try assumption; try lia.
  - (* L * 2^(-e') <= q *)
    destruct (Z_le_gt_dec (L * 2 ^ (- e')) q) as [|Hgt]; [assumption|exfalso].
    assert ((q + 1) * Zpos m2 <= L * 2 ^ (- e') * Zpos m2)
      by (apply Z.mul_le_mono_nonneg_r; lia).
    lia.
  - (* q <= U * 2^(-e') *)
    destruct (Z_le_gt_dec q (U * 2 ^ (- e'))) as [|Hgt]; [assumption|exfalso].
    assert ((U * 2 ^ (- e') + 1) * Zpos m2 <= q * Zpos m2)
      by (apply Z.mul_le_mono_nonneg_r; lia).
    lia.
  - intros Heq. apply Hloc. rewrite <- Heq in Hhi'. lia.
Qed.

Lemma SFleb_one (mf : positive) (ef : Z) :
  -52 <= ef -> (ef = -52 -> 2 ^ 52 <= Zpos mf) ->
  SFleb (S754_finite false (2 ^ 52) (-52)) (S754_finite false mf ef) = true.
Proof.
  intros He Hm. unfold SFleb. cbn [SFcompare].
  destruct (Z.compare_spec (-52) ef) as [Heq|Hlt|Hgt]; try reflexivity; try lia.
  change (Pos.compare_cont Eq (2 ^ 52) mf) with (Zpos (2 ^ 52) ?= Zpos mf).
  specialize (Hm (eq_sym Heq)).
  destruct (Z.compare_spec (Zpos (2 ^ 52)) (Zpos mf)) as [?|?|Hc];
    try reflexivity.
  change (Zpos (2 ^ 52)) with (2 ^ 52) in Hc. lia.
Qed.

Lemma SFdiv_ge_one (m1 m2 : positive) (e1 e2 : Z) :
  bounded prec emax m1 e1 = true -> bounded prec emax m2 e2 = true ->
  scaled m2 e2 < scaled m1 e1 ->
  SFleb (S754_finite false (2 ^ 52) (-52))
        (SFdiv prec emax (S754_finite false m1 e1) (S754_finite false m2 e2))
  = true.
Proof.
  intros H1 H2 Hlt.
  pose proof (bounded_inv m1 e1 H1) as (He1 & _ & _).
  pose proof (bounded_inv m2 e2 H2) as (He2 & _ & _).
  destruct (SFdiv_core_facts m1 m2 e1 e2 H1 H2 ltac:(lia))
    as (q & r & e' & loc & Hcore & He'lo & Hs & Hqr & Hr & Hq & Hloc).
  unfold SFdiv. rewrite Hcore. cbn [xorb].
  destruct (round_aux_spec false q e' loc ltac:(lia)) as (m_r & Hmr & Hmr53 & _ & ->).
  set (k := Z.max (fexp prec emax (Zdigits2 q + e') - e') 0) in *.
  (* the shift is by the number of bits above 53 *)
  assert (Hdq : Zdigits2 q = 53 \/ Zdigits2 q = 54).
  { destruct (Z_lt_ge_dec q (2 ^ 53)).
    - left. apply digits_unique; lia.
    - right. apply digits_unique; lia. }
  assert (Hk : k = Zdigits2 q - 53)
    by (unfold k, fexp, SpecFloat.emin, prec, emax; lia).
  assert (Hq52 : 2 ^ 52 <= q / 2 ^ k).
  { destruct Hdq as [Hd|Hd]; rewrite Hk, Hd.
    - change (2 ^ (53 - 53)) with 1. rewrite Z.div_1_r. lia.
    - change (2 ^ (54 - 53)) with 2.
      apply Z.div_le_lower_bound; [lia|].
      destruct (Z_lt_ge_dec q (2 ^ 53)) as [Hlt'|]; [|lia].
      rewrite (digits_unique q 53) in Hd; lia. }
  (* when the magnitudes coincide the quotient has 54 bits *)
  assert (Hek : -52 <= e' + k).
  { destruct (Z.eq_dec e' (-53)) as [He'|]; [|lia].
    assert (H53 : 2 ^ 53 <= q).
    { destruct (Z_le_gt_dec (2 ^ 53) q) as [|Hgt]; [assumption|exfalso].
      assert (Hx : 1 * 2 ^ (- e') * Zpos m2 <= Zpos m1 * 2 ^ (e1 - e2 - e')).
      { apply rescale_le; lia. }
      (* strictness *)
      assert (Hy : ~ (Zpos m1 * 2 ^ (e1 - e2 - e') <= 2 ^ (- e') * Zpos m2)).
      { intros Hc.
        assert (scaled m1 e1 <= 1 * scaled m2 e2); [|lia].
        unfold scaled.
        assert (Hp2' : 0 < 2 ^ (e2 + 1074)) by (apply pow2_pos; lia).
        assert (Hp3 : 0 < 2 ^ (- e')) by (apply pow2_pos; lia).
        assert (Heq : 2 ^ (e1 + 1074) * 2 ^ (- e')
                      = 2 ^ (e1 - e2 - e') * 2 ^ (e2 + 1074)).
        { rewrite <- !pow2_split by lia. f_equal. lia. }
        apply (Z.mul_le_mono_pos_r _ _ (2 ^ (- e'))); [assumption|].
        replace (Zpos m1 * 2 ^ (e1 + 1074) * 2 ^ (- e'))
          with (Zpos m1 * 2 ^ (e1 - e2 - e') * 2 ^ (e2 + 1074))
          by (rewrite <- !Z.mul_assoc, Heq; reflexivity).
        replace (1 * (Zpos m2 * 2 ^ (e2 + 1074)) * 2 ^ (- e'))
          with (2 ^ (- e') * Zpos m2 * 2 ^ (e2 + 1074)) by ring.
        apply Z.mul_le_mono_nonneg_r; lia. }
      rewrite He' in *. change (- -53) with 53 in *.
      assert ((q + 1) * Zpos m2 <= 2 ^ 53 * Zpos m2)
        by (apply Z.mul_le_mono_nonneg_r; lia).
      lia. }
    assert (Zdigits2 q = 54) by (apply digits_unique; lia).
    lia. }
  unfold pack.
  destruct (Z.eqb_spec m_r 0); [lia|].
  destruct (Z.eqb_spec m_r (2 ^ 53)).
  - destruct (Z.leb_spec (e' + k + 1) 971); [|reflexivity].
    apply SFleb_one; [lia|]. intros _. reflexivity.
  - destruct (Z.leb_spec (e' + k) 971); [|reflexivity].
    apply SFleb_one; [lia|]. intros _. rewrite Z2Pos.id; lia.
Qed.


End Binary64.

(** ** Signs and order of results *)

Lemma unsigned_weaken x : unsigned x -> unsigned_or_nan x.
Proof. apply sf_unsigned_weaken. Qed.

Lemma unsigned_or_nan_zero : unsigned_or_nan 0.
Proof. reflexivity. Qed.

Lemma unsigned_or_nan_mul (a b : float) : unsigned_or_nan a -> unsigned_or_nan b -> unsigned_or_nan (a * b).
Proof.
  unfold unsigned_or_nan. rewrite mul_spec.
  destruct (Prim2SF a) as [sa|sa| |sa ma ea], (Prim2SF b) as [sb|sb| |sb mb eb];
    cbn; intros; subst; try reflexivity; try exact I.
  apply round_aux_unsigned_or_nan.
Qed.

Lemma unsigned_or_nan_square (x : float) : unsigned_or_nan (x * x).
Proof.
  unfold unsigned_or_nan. rewrite mul_spec.
  destruct (Prim2SF x) as [s|s| |s m e]; cbn; try exact I;
    try (destruct s; reflexivity).
  replace (xorb s s) with false by (destruct s; reflexivity).
  apply round_aux_unsigned_or_nan.
Qed.

Lemma binary_normalize_pos_unsigned_or_nan (m : positive) (e : Z) :
  sf_unsigned_or_nan (binary_normalize prec emax (Zpos m) e false).
Proof.
  cbn [binary_normalize]. unfold binary_round.
  destruct (shl_align _ _ _) as [mz ez]. apply round_aux_unsigned_or_nan.
Qed.

Lemma unsigned_or_nan_add (a b : float) : unsigned_or_nan a -> unsigned_or_nan b -> unsigned_or_nan (a + b).
Proof.
  unfold unsigned_or_nan. rewrite add_spec.
  destruct (Prim2SF a) as [sa|sa| |sa ma ea], (Prim2SF b) as [sb|sb| |sb mb eb];
    cbn [sf_unsigned_or_nan]; intros; subst; try reflexivity; try exact I.
  unfold SF64add, SFadd. cbv zeta. cbn [cond_Zopp].
  apply binary_normalize_pos_unsigned_or_nan.
Qed.

(** Adding a number that is not below zero (it may be -0 or NaN). *)
Lemma unsigned_or_nan_add_not_negative (a b : float) :
  unsigned_or_nan a -> (b <? 0) = false -> unsigned_or_nan (a + b).
Proof.
  intros Ha Hb.
  destruct (Prim2SF b) as [sb|sb| |sb mb eb] eqn:Eb.
  - (* b is a zero *)
    unfold unsigned_or_nan in *. rewrite add_spec, Eb.
    destruct (Prim2SF a) as [sa|sa| |sa ma ea]; cbn in *; subst;
      try reflexivity; try exact I.
    destruct sb; reflexivity.
  - apply unsigned_or_nan_add; [assumption|]. unfold unsigned_or_nan. rewrite Eb.
    rewrite ltb_spec, Eb in Hb. destruct sb; [discriminate|reflexivity].
  - apply unsigned_or_nan_add; [assumption|]. unfold unsigned_or_nan. now rewrite Eb.
  - apply unsigned_or_nan_add; [assumption|]. unfold unsigned_or_nan. rewrite Eb.
    rewrite ltb_spec, Eb in Hb. destruct sb; [discriminate|reflexivity].
Qed.

Lemma unsigned_or_nan_div (a b : float) : unsigned_or_nan a -> unsigned_or_nan b -> unsigned_or_nan (a / b).
Proof.
  unfold unsigned_or_nan. rewrite div_spec.
  destruct (Prim2SF a) as [sa|sa| |sa ma ea], (Prim2SF b) as [sb|sb| |sb mb eb];
    cbn [sf_unsigned_or_nan]; intros; subst; try reflexivity; try exact I.
  unfold SF64div, SFdiv.
  destruct (SFdiv_core_binary _ _ _ _ _ _) as [[mz ez] lz].
  apply round_aux_unsigned_or_nan.
Qed.

Lemma unsigned_or_nan_sqrt (a : float) : unsigned_or_nan a -> unsigned_or_nan (sqrt a).
Proof.
  unfold unsigned_or_nan. rewrite sqrt_spec.
  destruct (Prim2SF a) as [sa|sa| |sa ma ea];
    cbn [sf_unsigned_or_nan]; intros; subst; try reflexivity; try exact I.
  unfold SF64sqrt, SFsqrt.
  destruct (SFsqrt_core_binary _ _ _ _) as [[mz ez] lz].
  apply round_aux_unsigned_or_nan.
Qed.

Lemma unsigned_or_nan_of_Z_nonneg (z : Z) : (0 <= z)%Z -> unsigned_or_nan (JS.of_Z z).
Proof.
  intros Hz. destruct z as [|p|p]; try lia.
  - reflexivity.
  - unfold unsigned_or_nan, JS.of_Z. rewrite of_uint63_spec.
    pose proof (Uint63.to_Z_bounded (Uint63.of_Z (Zpos p))) as [Hlo _].
    destruct (Uint63.to_Z _) as [|q|q]; try lia.
    + reflexivity.
    + apply binary_normalize_pos_unsigned_or_nan.
Qed.

Lemma unsigned_or_nan_of_nat (n : nat) : unsigned_or_nan (JS.of_nat n).
Proof. apply unsigned_or_nan_of_Z_nonneg. lia. Qed.

Lemma unsigned_or_nan_Math_min (a b : float) : unsigned_or_nan a -> unsigned_or_nan b -> unsigned_or_nan (JS.Math_min a b).
Proof.
  intros Ha Hb. unfold JS.Math_min.
  repeat match goal with |- context [if ?c then _ else _] => destruct c end;
    try assumption; exact I.
Qed.

Lemma float_mul_comm (a b : float) : a * b = b * a.
Proof.
  apply Prim2SF_inj. rewrite !mul_spec. unfold SF64mul, SFmul.
  destruct (Prim2SF a) as [sa|sa| |sa ma ea], (Prim2SF b) as [sb|sb| |sb mb eb];
    try reflexivity; try (now rewrite xorb_comm).
  now rewrite xorb_comm, Pos.mul_comm, Z.add_comm.
Qed.

Lemma valid_finite (x : float) (s : bool) (m : positive) (e : Z) :
  Prim2SF x = S754_finite s m e -> bounded prec emax m e = true.
Proof.
  intros H. pose proof (Prim2SF_valid x) as Hv. now rewrite H in Hv.
Qed.

(** A ratio above a threshold that is not negative: at least 1. *)
Lemma ratio_ge_one (E P : float) :
  unsigned_or_nan P -> (P <? E) = true -> unsigned (E / P) /\ (1 <=? E / P) = true.
Proof.
  unfold unsigned_or_nan, unsigned. intros HP Hlt.
  rewrite ltb_spec in Hlt. rewrite leb_spec, div_spec.
  change (Prim2SF 1) with (S754_finite false (2 ^ 52) (-52)).
  unfold SFltb in Hlt.
  destruct (Prim2SF P) as [sp|sp| |sp mp ep] eqn:EP; cbn [sf_unsigned_or_nan] in HP;
    try subst sp;
    destruct (Prim2SF E) as [se|se| |se me ee] eqn:EE;
    try (destruct se); cbn [SFcompare] in Hlt;
    try discriminate Hlt;
    try (split; [exact I|reflexivity]).
  (* both finite *)
  pose proof (valid_finite P _ _ _ EP) as Hvp.
  pose proof (valid_finite E _ _ _ EE) as Hve.
  pose proof (compare_scaled mp me ep ee Hvp Hve) as Hc.
  cbn [SFcompare] in Hc. injection Hc as Hc. rewrite Hc in Hlt.
  destruct (Z.compare_spec (scaled mp ep) (scaled me ee)) as [?|Hs|?];
    try discriminate Hlt.
  split.
  - unfold SF64div, SFdiv.
    destruct (SFdiv_core_facts me mp ee ep Hve Hvp ltac:(lia))
      as (q & r & e' & loc & Hcore & _ & _ & _ & _ & Hq & _).
    rewrite Hcore. apply round_aux_unsigned. lia.
  - now apply SFdiv_ge_one.
Qed.

Lemma unsigned_sub_one (q : float) :
  unsigned q -> (1 <=? q) = true -> unsigned (q - 1).
Proof.
  unfold unsigned. intros Hq Hle.
  rewrite leb_spec in Hle. rewrite sub_spec.
  change (Prim2SF 1) with (S754_finite false (2 ^ 52) (-52)) in *.
  destruct (Prim2SF q) as [s|s| |s m e] eqn:Eq_; cbn [sf_unsigned] in Hq;
    try contradiction; destruct s; try contradiction.
  - discriminate Hle.
  - exact I.
  - pose proof (valid_finite q _ _ _ Eq_) as Hv.
    pose proof (bounded_inv m e Hv) as (He & _ & _).
    pose proof (mantissa_bounds m e Hv) as [_ Hnorm].
    unfold SF64sub, SFsub. cbv zeta. cbn [cond_Zopp].
    set (ez := Z.min e (-52)).
    pose proof (shl_align_value m e ez ltac:(unfold ez; lia)) as Hvm.
    pose proof (shl_align_value (2 ^ 52) (-52) ez ltac:(unfold ez; lia)) as Hv1.
    set (m' := fst (shl_align m e ez)) in *.
    set (o' := fst (shl_align (2 ^ 52) (-52) ez)) in *.
    assert (Hge : (Zpos o' <= Zpos m')%Z).
    { rewrite Hvm, Hv1.
      unfold SFleb in Hle. cbn [SFcompare] in Hle.
      destruct (Z.compare_spec (-52) e) as [Heq|Hlt|Hgt].
      - subst e. unfold ez. change (Z.min (-52) (-52)) with (-52)%Z.
        change (-52 - -52)%Z with 0%Z. change (2 ^ 0)%Z with 1%Z.
        specialize (Hnorm ltac:(lia)).
        change (Zpos (2 ^ 52)) with (2 ^ 52)%Z. lia.
      - replace ez with (-52)%Z by (unfold ez; lia).
        change (-52 - -52)%Z with 0%Z. change (2 ^ 0)%Z with 1%Z.
        specialize (Hnorm ltac:(lia)).
        assert (0 < 2 ^ (e - -52))%Z by (apply pow2_pos; lia).
        change (Zpos (2 ^ 52)) with (2 ^ 52)%Z. nia.
      - discriminate Hle. }
    destruct (Zpos m' - Zpos o')%Z as [|d|d] eqn:Hd; try lia.
    + exact I.
    + cbn [binary_normalize]. apply binary_round_unsigned.
Qed.

Lemma unsigned_mul_two (d : float) : unsigned d -> unsigned (d * 2).
Proof.
  unfold unsigned. rewrite mul_spec.
  change (Prim2SF 2) with (S754_finite false (2 ^ 52) (-51)).
  destruct (Prim2SF d) as [s|s| |s m e]; cbn [sf_unsigned];
    try contradiction; destruct s; try contradiction; intros _;
    try exact I.
  cbn [SF64mul SFmul xorb]. apply round_aux_unsigned. lia.
Qed.

Lemma unsigned_not_nan (x : float) : unsigned x -> is_nan x = false.
Proof.
  unfold unsigned, is_nan. rewrite FloatAxioms.eqb_spec. unfold SFeqb.
  destruct (Prim2SF x) as [s|s| |s m e]; cbn [sf_unsigned];
    try contradiction; destruct s; try contradiction; intros _;
    try reflexivity.
  cbn [SFcompare]. rewrite Z.compare_refl.
  change (Pos.compare_cont Eq m m) with (Pos.compare m m).
  rewrite Pos.compare_refl. reflexivity.
Qed.

Lemma unsigned_leb_zero (x : float) : unsigned x -> (0 <=? x) = true /\ (x <? 0) = false.
Proof.
  unfold unsigned. rewrite leb_spec, ltb_spec.
  change (Prim2SF 0) with (S754_zero false).
  destruct (Prim2SF x) as [s|s| |s m e]; cbn [sf_unsigned];
    try contradiction; destruct s; try contradiction; intros _;
    split; reflexivity.
Qed.

Lemma unsigned_zero_eq (x : float) : unsigned x -> (0 <? x) = false -> x = 0.
Proof.
  unfold unsigned. rewrite ltb_spec.
  change (Prim2SF 0) with (S754_zero false).
  intros Hx Hlt. apply Prim2SF_inj.
  change (Prim2SF 0) with (S754_zero false).
  destruct (Prim2SF x) as [s|s| |s m e]; cbn [sf_unsigned] in Hx;
    try contradiction; destruct s; try contradiction;
    try reflexivity; discriminate Hlt.
Qed.

(** Not below and not above, on numbers: equal or below. *)
Lemma not_ltb_leb (a b : float) :
  is_nan a = false -> is_nan b = false -> (a <? b) = false -> (b <=? a) = true.
Proof.
  unfold is_nan. rewrite !FloatAxioms.eqb_spec, ltb_spec, leb_spec.
  unfold SFeqb, SFltb, SFleb.
  destruct (Prim2SF a) as [sa|sa| |sa ma ea], (Prim2SF b) as [sb|sb| |sb mb eb];
    cbn [SFcompare]; try (intros; discriminate);
    try (destruct sa, sb; intros; try reflexivity; discriminate);
    try (destruct sa; intros; try reflexivity; discriminate);
    try (destruct sb; intros; try reflexivity; discriminate).
  intros _ _.
  change (Pos.compare_cont Eq ma mb) with (Zpos ma ?= Zpos mb)%Z.
  change (Pos.compare_cont Eq mb ma) with (Zpos mb ?= Zpos ma)%Z.
  rewrite (Z.compare_antisym eb ea), (Z.compare_antisym (Zpos mb) (Zpos ma)).
  destruct sa, sb, (eb ?= ea)%Z, (Zpos mb ?= Zpos ma)%Z; cbn;
    intros; try reflexivity; discriminate.
Qed.

Lemma min_one_clamped (x : float) :
  unsigned x ->
  let y := JS.Math_min 1 x in
  (0 <=? y) = true /\ (y <=? 1) = true /\ clamp 0 1 x = y.
Proof.
  intros Hx. cbv zeta. unfold clamp.
  pose proof (unsigned_not_nan x Hx) as Hnan.
  assert (Hmax : forall y, unsigned y -> JS.Math_max 0 y = y).
  { intros y Hy. unfold JS.Math_max.
    rewrite (unsigned_not_nan y Hy). cbn [is_nan orb].
    change (is_nan 0) with false. cbn [orb].
    destruct (0 <? y) eqn:H0; [reflexivity|].
    rewrite (proj2 (unsigned_leb_zero y Hy)).
    change (get_sign 0) with false. cbn iota.
    symmetry. now apply unsigned_zero_eq. }
  unfold JS.Math_min. change (is_nan 1) with false. rewrite Hnan. cbn [orb].
  destruct (1 <? x) eqn:H1.
  - repeat split; reflexivity.
  - destruct (x <? 1) eqn:H2.
    + split; [apply (unsigned_leb_zero x Hx)|]. split; [now apply ltb_leb|].
      now apply Hmax.
    + change (get_sign 1) with false. cbn iota.
      split; [apply (unsigned_leb_zero x Hx)|]. split.
      * apply not_ltb_leb; [reflexivity|assumption|assumption].
      * now apply Hmax.
Qed.

(** The confidence assigned on a beat. *)
Lemma fire_confidence_clamped {platform : Platform} (E A T : float) :
  unsigned_or_nan A -> unsigned_or_nan T -> (T * A <? E) = true ->
  let x := (E / (A * T) - 1) * 2 in
  let c := AdvancedBeatDetector.fire_confidence E A T in
  (0 <=? c) = true /\ (c <=? 1) = true /\ c = clamp 0 1 x.
Proof.
  intros HA HT Hfire. cbv zeta.
  unfold AdvancedBeatDetector.fire_confidence.
  rewrite (float_mul_comm A T).
  destruct (ratio_ge_one E (T * A) (unsigned_or_nan_mul T A HT HA) Hfire) as [Hq Hq1].
  pose proof (unsigned_mul_two _ (unsigned_sub_one _ Hq Hq1)) as Hx.
  destruct (min_one_clamped _ Hx) as (H0 & H1 & Hc).
  repeat split; try assumption. now symmetry.
Qed.

(** ** Beat confidence *)

Section Confidence.
Context {platform : Platform}.
Hypothesis pow_square_sign : forall x, (Math_pow x 2 <? 0) = false.

Lemma unsigned_or_nan_fold_squares (l : list float) : forall acc,
  unsigned_or_nan acc -> unsigned_or_nan (fold_left (fun s x => s + x * x) l acc).
Proof.
  induction l as [|x l IH]; intros acc Hacc; cbn [fold_left].
  - exact Hacc.
  - apply IH. apply unsigned_or_nan_add; [assumption|apply unsigned_or_nan_square].
Qed.

Lemma unsigned_or_nan_totalEnergy (spectrum : list float) :
  unsigned_or_nan (AdvancedBeatDetector.calculateTotalEnergy spectrum).
Proof.
  unfold AdvancedBeatDetector.calculateTotalEnergy, JS.Math_sqrt, JS.sum_squares.
  apply unsigned_or_nan_sqrt, unsigned_or_nan_div; [|apply unsigned_or_nan_of_nat].
  apply unsigned_or_nan_fold_squares, unsigned_or_nan_zero.
Qed.

Lemma unsigned_or_nan_fold_sum (l : list float) : forall acc,
  unsigned_or_nan acc -> Forall unsigned_or_nan l -> unsigned_or_nan (fold_left (fun a b => a + b) l acc).
Proof.
  induction l as [|x l IH]; intros acc Hacc Hl; cbn [fold_left].
  - exact Hacc.
  - inversion Hl; subst. apply IH; [|assumption]. now apply unsigned_or_nan_add.
Qed.

Lemma Forall_push_capped {A} (P : A -> Prop) (cap : nat) (buf : list A) (x : A) :
  Forall P buf -> P x -> Forall P (JS.push_capped cap buf x).
Proof.
  intros Hb Hx. unfold JS.push_capped.
  assert (H : Forall P (buf ++ [x])) by (apply Forall_app; split; auto).
  destruct (_ <? _)%nat; [|exact H].
  destruct (buf ++ [x]); [exact H|]. now inversion H.
Qed.

Lemma unsigned_or_nan_variance (buffer : list float) (avg : float) :
  unsigned_or_nan (AdvancedBeatDetector.variance_of buffer avg).
Proof.
  unfold AdvancedBeatDetector.variance_of.
  apply unsigned_or_nan_div; [|apply unsigned_or_nan_of_nat].
  generalize unsigned_or_nan_zero. generalize 0.
  induction buffer as [|x l IH]; intros acc Hacc; cbn [fold_left].
  - exact Hacc.
  - apply IH. apply unsigned_or_nan_add_not_negative; [assumption|apply pow_square_sign].
Qed.

Lemma process_confidence (self : AdvancedBeatDetector.t) (spectrum : list float)
    (currentTime : float) (tl : Timeline) (n : nat) :
  Forall unsigned_or_nan (AdvancedBeatDetector.energyBuffer self) ->
  let '(r, self') := fst (AdvancedBeatDetector.process self spectrum currentTime tl n) in
  Forall unsigned_or_nan (AdvancedBeatDetector.energyBuffer self')
  /\ confidence_spec {| Trace.timestamp := currentTime;
                        Trace.kickReading := tl n;
                        Trace.snareReading := tl (S n);
                        Trace.hihatReading := tl (S (S n));
                        Trace.result := r;
                        Trace.after := self' |}.
Proof.
  intros Hbuf. unfold_process.
  cbn [fst]. unfold confidence_spec.
  cbn [Trace.result Trace.after BeatResult.confidence BeatResult.beat
       BeatResult.energy AdvancedBeatDetector.energyBuffer
       AdvancedBeatDetector.adaptiveThreshold].
  unfold averageEnergy. cbn [AdvancedBeatDetector.energyBuffer].
  set (E := AdvancedBeatDetector.calculateTotalEnergy spectrum).
  set (buf := JS.push_capped 43 (AdvancedBeatDetector.energyBuffer self) E).
  set (A := JS.sum buf / JS.of_nat (length buf)).
  set (T := 1.2 + JS.Math_min 0.5 (AdvancedBeatDetector.variance_of buf A * 2)).
  assert (HE : unsigned_or_nan E) by apply unsigned_or_nan_totalEnergy.
  assert (Hbuf' : Forall unsigned_or_nan buf) by (apply Forall_push_capped; assumption).
  assert (HA : unsigned_or_nan A).
  { apply unsigned_or_nan_div; [|apply unsigned_or_nan_of_nat].
    apply unsigned_or_nan_fold_sum; [apply unsigned_or_nan_zero|assumption]. }
  assert (HT : unsigned_or_nan T).
  { apply unsigned_or_nan_add; [reflexivity|].
    apply unsigned_or_nan_Math_min; [reflexivity|].
    apply unsigned_or_nan_mul; [apply unsigned_or_nan_variance|reflexivity]. }
  split; [exact Hbuf'|].
  destruct (JS.gt E (T * A) && JS.gt (currentTime - AdvancedBeatDetector.lastBeatTime self)
                                      (AdvancedBeatDetector.minBeatInterval self)) eqn:Hbeat.
  - apply andb_prop in Hbeat. destruct Hbeat as [Hfire _].
    destruct (fire_confidence_clamped E A T HA HT Hfire) as (H0 & H1 & Hc).
    split; [exact H0|split; [exact H1|intros _; exact Hc]].
  - split; [reflexivity|split; [reflexivity|discriminate]].
Qed.

(** C7.  Along every call sequence of a fresh detector, on a platform
    whose [Math.pow(x, 2)] is never negative, each call returns a
    confidence in [[0, 1]], and a call on which the beat fires returns
    [clamp(0, 1, (energy / (averageEnergy * adaptiveThreshold) - 1) * 2)]. *)
Theorem beat_confidence_clamped (calls : list (list float * float))
    (tl : Timeline) (n : nat) :
  Forall confidence_spec
         (Trace.process_all AdvancedBeatDetector.create calls tl n).
Proof.
  assert (H : forall self n,
             Forall unsigned_or_nan (AdvancedBeatDetector.energyBuffer self) ->
             Forall confidence_spec (Trace.process_all self calls tl n)).
  { induction calls as [|[spectrum currentTime] rest IH]; intros self k Hbuf.
    - constructor.
    - cbn [Trace.process_all].
      pose proof (process_confidence self spectrum currentTime tl k Hbuf) as Hstep.
      destruct (AdvancedBeatDetector.process self spectrum currentTime tl k)
        as [[r self'] k'].
      cbn [fst] in Hstep. destruct Hstep as [Hbuf' Hspec].
      constructor; [exact Hspec|]. now apply IH. }
  apply H. constructor.
Qed.
End Confidence.

Lemma unsigned_or_nan_not_negative (x : float) :
  unsigned_or_nan x -> (x <? 0) = false.
Proof.
  unfold unsigned_or_nan. rewrite ltb_spec.
  destruct (Prim2SF x) as [s|s| |s m e]; cbn; intros H; subst; reflexivity.
Qed.

Lemma square_platform_pow_sign (x : float) :
  (Math_pow (Platform := square_platform) x 2 <? 0) = false.
Proof.
  change (Math_pow (Platform := square_platform) x 2) with (x * x).
  apply unsigned_or_nan_not_negative, unsigned_or_nan_square.
Qed.

(** C7 (witness): a quiet call and a loud one 300 ms later, where squares
    are correctly rounded products.  The beat fires on the second call. *)
Lemma beat_confidence_clamped_witness :
  let events := Trace.process_all (platform := square_platform)
                  AdvancedBeatDetector.create loud_calls jitter_clock O in
  (forall x, (Math_pow (Platform := square_platform) x 2 <? 0) = false)
  /\ map (fun e => BeatResult.beat (Trace.result e)) events = [false; true]
  /\ map (fun e => BeatResult.confidence (Trace.result e)) events
     = [0; 0.24635296698475395]
  /\ Forall confidence_spec events.
Proof.
  cbv zeta. split; [exact square_platform_pow_sign|].
  split; [vm_compute; reflexivity|].
  split; [vm_compute; reflexivity|].
  apply (beat_confidence_clamped (platform := square_platform)).
  exact square_platform_pow_sign.
Defined.

(** ** Tempo *)

Lemma SFleb_scaled (m1 m2 : positive) (e1 e2 : Z) :
  bounded prec emax m1 e1 = true -> bounded prec emax m2 e2 = true ->
  (SFleb (S754_finite false m1 e1) (S754_finite false m2 e2) = true
   <-> (scaled m1 e1 <= scaled m2 e2)%Z).
Proof.
  intros H1 H2. unfold SFleb. rewrite (compare_scaled m1 m2 e1 e2 H1 H2).
  destruct (Z.compare_spec (scaled m1 e1) (scaled m2 e2));
    split; intros; try reflexivity; try discriminate; lia.
Qed.

Lemma band_represents (x : float) :
  in_band 60 200 x ->
  exists v, represents x v /\ (60 * 2 ^ 1074 <= v <= 200 * 2 ^ 1074)%Z.
Proof.
  unfold in_band. rewrite !leb_spec.
  change (Prim2SF 60) with (S754_finite false 8444249301319680 (-47)).
  change (Prim2SF 200) with (S754_finite false 7036874417766400 (-45)).
  intros [Hlo Hhi].
  destruct (Prim2SF x) as [[]|[]| |[] m e] eqn:Ex;
    try discriminate Hlo; try discriminate Hhi.
  pose proof (valid_finite x _ _ _ Ex) as Hv.
  apply SFleb_scaled in Hlo; [|reflexivity|assumption].
  apply SFleb_scaled in Hhi; [|assumption|reflexivity].
  exists (scaled m e). split; [exists m, e; split; [exact Ex|reflexivity]|].
  change (60 * 2 ^ 1074)%Z with (scaled 8444249301319680 (-47)).
  change (200 * 2 ^ 1074)%Z with (scaled 7036874417766400 (-45)).
  lia.
Qed.

Lemma represents_band (x : float) (v : Z) :
  represents x v -> (60 * 2 ^ 1074 <= v <= 200 * 2 ^ 1074)%Z ->
  in_band 60 200 x.
Proof.
  intros (m & e & Ex & <-) Hb. unfold in_band. rewrite !leb_spec, Ex.
  change (Prim2SF 60) with (S754_finite false 8444249301319680 (-47)).
  change (Prim2SF 200) with (S754_finite false 7036874417766400 (-45)).
  pose proof (valid_finite x _ _ _ Ex) as Hv.
  change (60 * 2 ^ 1074)%Z with (scaled 8444249301319680 (-47)) in Hb.
  change (200 * 2 ^ 1074)%Z with (scaled 7036874417766400 (-45)) in Hb.
  split; apply SFleb_scaled; try assumption; try reflexivity; lia.
Qed.

Lemma represents_add (a x : float) (va vx L U : Z) :
  represents a va -> represents x vx ->
  (0 < L)%Z -> (U < 2 ^ 53)%Z ->
  (L * 2 ^ 1074 <= va + vx <= U * 2 ^ 1074)%Z ->
  exists v, represents (a + x) v /\ (L * 2 ^ 1074 <= v <= U * 2 ^ 1074)%Z.
Proof.
  intros (ma & ea & Ea & <-) (mx & ex & Ex & <-) HL HU Hb.
  destruct (SFadd_between ma mx ea ex L U) as (mf & ef & Hr & Hv);
    try assumption; try (eapply valid_finite; eassumption).
  exists (scaled mf ef). split; [|exact Hv].
  exists mf, ef. split; [|reflexivity].
  rewrite add_spec, Ea, Ex. exact Hr.
Qed.

Lemma represents_zero_add (x : float) (v : Z) :
  represents x v -> represents (0 + x) v.
Proof.
  intros (m & e & Ex & Hv). exists m, e. split; [|exact Hv].
  rewrite add_spec, Ex. reflexivity.
Qed.

Lemma of_nat_small (j : nat) :
  (1 <= j <= 8)%nat ->
  exists m e, Prim2SF (JS.of_nat j) = S754_finite false m e
              /\ scaled m e = (Z.of_nat j * 2 ^ 1074)%Z.
Proof.
  intros Hj.
  do 9 (destruct j as [|j];
        [try lia; eexists; eexists; split; vm_compute; reflexivity|]).
  lia.
Qed.

Lemma represents_div_count (s : float) (vs : Z) (j : nat) :
  represents s vs -> (1 <= j <= 8)%nat ->
  (60 * Z.of_nat j * 2 ^ 1074 <= vs <= 200 * Z.of_nat j * 2 ^ 1074)%Z ->
  exists v, represents (s / JS.of_nat j) v
            /\ (60 * 2 ^ 1074 <= v <= 200 * 2 ^ 1074)%Z.
Proof.
  intros (ms & es & Es & <-) Hj Hb.
  destruct (of_nat_small j Hj) as (mj & ej & Ej & Hvj).
  assert (Hq : (60 * scaled mj ej <= scaled ms es <= 200 * scaled mj ej)%Z)
    by (rewrite Hvj; lia).
  destruct (SFdiv_between ms mj es ej 60 200
              (valid_finite _ _ _ _ Es) (valid_finite _ _ _ _ Ej)
              ltac:(lia) ltac:(lia) Hq) as (mf & ef & Hr & Hv).
  exists (scaled mf ef). split; [|exact Hv].
  exists mf, ef. split; [|reflexivity].
  rewrite div_spec, Es, Ej. exact Hr.
Qed.

Lemma sum_band_from (rest : list float) : forall (acc : float) (va : Z) (j : nat),
  represents acc va ->
  (60 * Z.of_nat j * 2 ^ 1074 <= va <= 200 * Z.of_nat j * 2 ^ 1074)%Z ->
  (1 <= j)%nat -> (j + length rest <= 8)%nat ->
  Forall (in_band 60 200) rest ->
  exists v, represents (fold_left (fun a b => a + b) rest acc) v
            /\ (60 * Z.of_nat (j + length rest) * 2 ^ 1074 <= v
                <= 200 * Z.of_nat (j + length rest) * 2 ^ 1074)%Z.
Proof.
  induction rest as [|x rest IH]; intros acc va j Hacc Hb Hj Hlen Hall;
    cbn [fold_left length] in *.
  - exists va. rewrite Nat.add_0_r. now split.
  - inversion Hall as [|? ? Hx Hrest]; subst.
    destruct (band_represents x Hx) as (vx & Hrx & Hbx).
    destruct (represents_add acc x va vx (60 * Z.of_nat (S j)) (200 * Z.of_nat (S j)))
      as (v' & Hr' & Hb'); try assumption; try lia.
    destruct (IH (acc + x) v' (S j) Hr' Hb' ltac:(lia) ltac:(lia) Hrest)
      as (v & Hr & Hv).
    exists v. split; [exact Hr|].
    replace (j + S (length rest))%nat with (S j + length rest)%nat by lia.
    exact Hv.
Qed.

(** The mean of one to eight tempo samples between 60 and 200 lies between
    60 and 200. *)
Lemma mean_in_band (buf : list float) :
  Forall (in_band 60 200) buf -> (1 <= length buf <= 8)%nat ->
  in_band 60 200 (JS.sum buf / JS.of_nat (length buf)).
Proof.
  intros Hall Hlen. destruct buf as [|x rest]; [cbn in Hlen; lia|].
  inversion Hall as [|? ? Hx Hrest]; subst.
  destruct (band_represents x Hx) as (vx & Hrx & Hbx).
  unfold JS.sum. cbn [fold_left].
  destruct (sum_band_from rest (0 + x) vx 1) as (v & Hr & Hv);
    try assumption; try lia.
  { now apply represents_zero_add. }
  { cbn [length] in Hlen. lia. }
  destruct (represents_div_count _ v (length (x :: rest)) Hr Hlen) as (w & Hw & Hbw).
  { cbn [length]. replace (S (length rest)) with (1 + length rest)%nat by lia.
    exact Hv. }
  now apply (represents_band _ w).
Qed.

Section Sorting.
Variable cmp : float -> float -> float.

Lemma sort_insert_In (x y : float) (l : list float) :
  In y (JS.sort_insert cmp x l) -> y = x \/ In y l.
Proof.
  induction l as [|z l IH]; cbn [JS.sort_insert].
  - intros [<-|[]]. now left.
  - destruct (JS.gt (cmp z x) 0); cbn [In].
    + intros [<-|H]; [now left|now right].
    + intros [<-|H]; [right; now left|].
      destruct (IH H) as [->|H']; [now left|right; now right].
Qed.

Lemma sort_insert_length (x : float) (l : list float) :
  length (JS.sort_insert cmp x l) = S (length l).
Proof.
  induction l as [|z l IH]; cbn [JS.sort_insert]; [reflexivity|].
  destruct (JS.gt (cmp z x) 0); cbn [length]; [reflexivity|].
  now rewrite IH.
Qed.

Lemma sort_fold_In (l : list float) : forall acc y,
  In y (fold_left (fun sorted x => JS.sort_insert cmp x sorted) l acc) ->
  In y acc \/ In y l.
Proof.
  induction l as [|x l IH]; intros acc y; cbn [fold_left].
  - now left.
  - intros H. destruct (IH _ _ H) as [H'|H']; [|right; now right].
    destruct (sort_insert_In _ _ _ H') as [->|H'']; [right; now left|now left].
Qed.

Lemma sort_fold_length (l : list float) : forall acc,
  length (fold_left (fun sorted x => JS.sort_insert cmp x sorted) l acc)
  = (length acc + length l)%nat.
Proof.
  induction l as [|x l IH]; intros acc; cbn [fold_left length].
  - lia.
  - rewrite IH, sort_insert_length. lia.
Qed.

Lemma sort_In (l : list float) (y : float) : In y (JS.sort cmp l) -> In y l.
Proof. intros H. destruct (sort_fold_In l [] y H) as [[]|H']. exact H'. Qed.

Lemma sort_length (l : list float) : length (JS.sort cmp l) = length l.
Proof. unfold JS.sort. now rewrite sort_fold_length. Qed.
End Sorting.

Lemma half_index (n : nat) :
  (1 <= n <= 16)%nat ->
  (Z.to_nat (JS.floorZ (JS.of_nat n / 2)) < n)%nat.
Proof.
  intros Hn.
  do 17 (destruct n as [|n];
         [try lia; apply Nat.ltb_lt; vm_compute; reflexivity|]).
  lia.
Qed.

Lemma median_In (intervals : list float) :
  (1 <= length intervals <= 16)%nat ->
  In (TempoTracker.median intervals) intervals.
Proof.
  intros Hlen. unfold TempoTracker.median, JS.get.
  apply (sort_In (fun a b => a - b)).
  apply nth_In. rewrite sort_length. now apply half_index.
Qed.

Lemma push_capped_length {A} (cap : nat) (buf : list A) (x : A) :
  (length buf <= cap)%nat -> (1 <= cap)%nat ->
  (1 <= length (JS.push_capped cap buf x) <= cap)%nat
  /\ (length buf <= length (JS.push_capped cap buf x))%nat.
Proof.
  intros Hlen Hcap. unfold JS.push_capped.
  destruct (Nat.ltb_spec cap (length (buf ++ [x]))) as [Hlt|Hge];
    rewrite length_app in Hlt || rewrite length_app in Hge;
    cbn [length] in *.
  - destruct buf as [|y buf]; cbn [app tl length] in *; [lia|].
    rewrite length_app. cbn [length]. lia.
  - rewrite length_app. cbn [length]. lia.
Qed.

Section Tempo.
Context {platform : Platform}.

Lemma calculateTempo_spec (intervals buffer : list float) :
  Forall accepted intervals -> (1 <= length intervals <= 16)%nat ->
  Forall (in_band 60 200) buffer -> (length buffer <= 8)%nat ->
  let '(bpm, buffer') := TempoTracker.calculateTempo intervals buffer in
  ((length intervals < 4)%nat /\ bpm = 0
   \/ (4 <= length intervals)%nat /\ (60 <=? bpm) = true /\ (bpm <=? 200) = true)
  /\ Forall (in_band 60 200) buffer'
  /\ (length buffer' <= 8)%nat.
Proof.
  intros Hacc Hlen Hbuf Hblen. unfold TempoTracker.calculateTempo.
  destruct (Nat.ltb_spec (length intervals) 4) as [Hlt|Hge].
  - split; [left; now split|]. now split.
  - assert (Htempo : in_band 60 200 (60000 / TempoTracker.median intervals)).
    { pose proof (median_In intervals Hlen) as Hin.
      rewrite Forall_forall in Hacc. exact (Hacc _ Hin). }
    pose proof (Forall_push_capped (in_band 60 200) 8 buffer _ Hbuf Htempo) as Hall.
    destruct (push_capped_length 8 buffer (60000 / TempoTracker.median intervals)
                Hblen ltac:(lia)) as [Hl _].
    split; [|split; [exact Hall|lia]].
    right. split; [exact Hge|].
    exact (mean_in_band _ Hall Hl).
Qed.

Lemma update_inv (self : TempoTracker.t) (b : BeatResult.t)
    (tl : Timeline) (n : nat) :
  tempo_inv self ->
  tempo_spec (fst (TempoTracker.update self b tl n)).
Proof.
  unfold tempo_inv. intros Hinv.
  unfold TempoTracker.update.
  destruct (BeatResult.beat b); [|exact Hinv].
  cbv [bind performance_now ret]. cbn [fst].
  destruct (JS.gt (TempoTracker.lastBeatTime self) 0); [|exact Hinv].
  set (interval := tl n - TempoTracker.lastBeatTime self).
  destruct (JS.ge (60000 / interval) 60 && (60000 / interval <=? 200)) eqn:Hok;
    [|exact Hinv].
  apply andb_prop in Hok. destruct Hok as [Hlo Hhi].
  destruct Hinv as (_ & Hacc & Hlen & Hbuf & Hblen).
  assert (Hnew : accepted interval) by (split; assumption).
  pose proof (Forall_push_capped accepted 16 _ _ Hacc Hnew) as Hacc'.
  destruct (push_capped_length 16 (TempoTracker.beatIntervals self) interval
              Hlen ltac:(lia)) as [Hlen' _].
  pose proof (calculateTempo_spec _ _ Hacc' Hlen' Hbuf Hblen) as Hcalc.
  destruct (TempoTracker.calculateTempo _ _) as [bpm buffer'].
  cbn [TempoTracker.beatIntervals TempoTracker.currentTempo
       TempoTracker.tempoBuffer tempo_spec].
  destruct Hcalc as (Hstate & Hall & Hl8).
  repeat split; try assumption; lia.
Qed.

(** C5.  Along every call sequence of a fresh tracker, the tempo [update]
    returns is 0 while fewer than four intervals have been accepted and
    lies in [[60, 200]] afterwards; every interval kept implies a tempo in
    [[60, 200]], and the tempo is the mean of at most 8 values
    [60000 / median] in that range. *)
Theorem tempo_in_range (beats : list BeatResult.t) (tl : Timeline) (n : nat) :
  Forall tempo_spec (Trace.update_all TempoTracker.create beats tl n).
Proof.
  assert (H : forall self k, tempo_inv self ->
                Forall tempo_spec (Trace.update_all self beats tl k)).
  { induction beats as [|b rest IH]; intros self k Hinv.
    - constructor.
    - cbn [Trace.update_all].
      pose proof (update_inv self b tl k Hinv) as Hstep.
      assert (Hcur : fst (fst (TempoTracker.update self b tl k))
                     = TempoTracker.currentTempo
                         (snd (fst (TempoTracker.update self b tl k)))).
      { unfold TempoTracker.update.
        destruct (BeatResult.beat b); reflexivity. }
      destruct (TempoTracker.update self b tl k) as [[bpm self'] k'].
      cbn [fst snd] in Hstep, Hcur. subst bpm.
      constructor; [exact Hstep|]. now apply IH. }
  apply H. unfold tempo_inv, tempo_spec.
  cbn [TempoTracker.create TempoTracker.beatIntervals TempoTracker.tempoBuffer
       TempoTracker.currentTempo length].
  split; [left; split; [lia|reflexivity]|].
  split; [constructor|]. split; [lia|]. split; [constructor|lia].
Qed.
End Tempo.

(** Beats half a second apart: no tempo until the fifth beat has given the
    fourth interval, 120 BPM from then on. *)
Example steady_beats_tempo :
  map fst (Trace.update_all (platform := square_platform)
             TempoTracker.create steady_beats steady_clock O)
  = [0; 0; 0; 0; 120; 120].
Proof. vm_compute. reflexivity. Qed.
